(** * The discovery responder of the TMF673 component

    A shallow embedding of [TMF673_GeographicAddress/utils/entrypoint.js]:
    the handler [entrypoint], its local helper [cleanPath] and the module
    function [stripTrailingSlash].

    The file has two parts.  Part I reads the specification document as a
    tree, typed by the data model the handler relies on, and is used for
    everything the handler computes.  Part II places the document in an
    object store, makes no assumption on the types of its fields, and is
    used for what the handler writes.  The definitions of both parts come
    first, the properties follow. *)

From Stdlib Require Import String Ascii List Bool Arith NArith Lia Permutation.
From Stdlib Require Import Floats.PrimFloat.
Import ListNotations.
Open Scope string_scope.
Open Scope list_scope.

(** ** JSON values

    Numbers are IEEE doubles, as in JavaScript.  The handler never computes
    with a number of the document: it tests some for truthiness and copies
    them. *)

#[warnings="-register-all"]
Inductive json : Type :=
| JNull
| JBool (b : bool)
| JNum (n : float)
| JStr (s : string)
| JArr (items : list json)
| JObj (props : list (string * json)).

(** ToBoolean. *)
Definition truthy (v : json) : bool :=
  match v with
  | JNull => false
  | JBool b => b
  | JNum n => negb (PrimFloat.eqb n PrimFloat.zero || negb (PrimFloat.eqb n n))
  | JStr s => negb (s =? "")
  | JArr _ => true
  | JObj _ => true
  end.

(** [a || b] where [a] may be undefined ([None]). *)
Definition js_or (a : option json) (b : json) : json :=
  match a with
  | Some v => if truthy v then v else b
  | None => b
  end.

(** [a || b] on strings that may be undefined: the empty string is falsy. *)
Definition str_or (a : option string) (b : string) : string :=
  match a with
  | Some s => if s =? "" then b else s
  | None => b
  end.

(** ** String primitives

    Strings are sequences of code units; the handler only looks at ["/"] and
    at the ASCII letters of method names. *)

Definition slash : ascii := "/"%char.

(** [String.prototype.toUpperCase] on ASCII text. *)
Definition upper_ascii (c : ascii) : ascii :=
  let n := nat_of_ascii c in
  if ((97 <=? n) && (n <=? 122))%nat then ascii_of_nat (n - 32) else c.

Fixpoint toUpperCase (s : string) : string :=
  match s with
  | EmptyString => EmptyString
  | String c r => String (upper_ascii c) (toUpperCase r)
  end.

(** [path.replace(/\/\//g, '/')]: the matches of a global regular expression
    are found left to right and do not overlap; the replacement text is not
    scanned again. *)
Fixpoint cleanPath (path : string) : string :=
  match path with
  | EmptyString => EmptyString
  | String c r =>
      match r with
      | String c' r' =>
          if Ascii.eqb c slash && Ascii.eqb c' slash
          then String slash (cleanPath r')
          else String c (cleanPath r)
      | EmptyString => String c EmptyString
      end
  end.

(** [str.replace(/\/$/, '')]: without the [m] flag [$] is the end of the
    input, so one final ["/"] is removed when there is one. *)
Fixpoint replace_final_slash (str : string) : string :=
  match str with
  | EmptyString => EmptyString
  | String c r =>
      match r with
      | EmptyString => if Ascii.eqb c slash then EmptyString else str
      | String _ _ => String c (replace_final_slash r)
      end
  end.

(** [str?.replace(/\/$/,'') || str], for a string [str]: an empty result of
    the replacement is falsy, and the argument is returned in its place. *)
Definition stripTrailingSlash (str : string) : string :=
  let r := replace_final_slash str in
  if r =? "" then str else r.

(** Occurrence of a doubled separator ["//"]. *)
Fixpoint doubled_slash (s : string) : bool :=
  match s with
  | EmptyString => false
  | String c r =>
      match r with
      | String c' _ => (Ascii.eqb c slash && Ascii.eqb c' slash) || doubled_slash r
      | EmptyString => false
      end
  end.

Definition starts_with_slash (s : string) : bool :=
  match s with
  | String c _ => Ascii.eqb c slash
  | EmptyString => false
  end.

Definition starts_with_two_slashes (s : string) : bool :=
  match s with
  | String c r => Ascii.eqb c slash && starts_with_slash r
  | EmptyString => false
  end.

Fixpoint ends_with_slash (s : string) : bool :=
  match s with
  | EmptyString => false
  | String c r =>
      match r with
      | EmptyString => Ascii.eqb c slash
      | String _ _ => ends_with_slash r
      end
  end.

(** Occurrence of three adjacent separators. *)
Fixpoint tripled_slash (s : string) : bool :=
  match s with
  | EmptyString => false
  | String c r =>
      match r with
      | String c' (String c'' _) =>
          (Ascii.eqb c slash && Ascii.eqb c' slash && Ascii.eqb c'' slash)
          || tripled_slash r
      | _ => false
      end
  end.

Fixpoint ends_with_two_slashes (s : string) : bool :=
  match s with
  | EmptyString => false
  | String c r =>
      match r with
      | EmptyString => false
      | String c' EmptyString => Ascii.eqb c slash && Ascii.eqb c' slash
      | String _ (String _ _) => ends_with_two_slashes r
      end
  end.

Fixpoint no_slash (s : string) : bool :=
  match s with
  | EmptyString => true
  | String c r => negb (Ascii.eqb c slash) && no_slash r
  end.



(** A doubled separator exactly where [a] and [b] are joined. *)
Definition doubled_at_join (a b : string) : bool :=
  ends_with_slash a && starts_with_slash b.

(** The text of [s] without its separators. *)
Fixpoint without_slashes (s : string) : string :=
  match s with
  | EmptyString => EmptyString
  | String c r => if Ascii.eqb c slash then without_slashes r else String c (without_slashes r)
  end.

(** A run of [n] separators. *)
Fixpoint slashes (n : nat) : string :=
  match n with
  | O => EmptyString
  | S m => String slash (slashes m)
  end.

(** ** Ordinary objects

    An object is the list of its own enumerable properties, in the order in
    which [for ... in] and [JSON.stringify] enumerate them: the keys that are
    array indices first, in ascending numeric order, then the other keys in
    the order of their creation. *)

Definition object : Type := list (string * json).

Fixpoint lookup {A : Type} (k : string) (o : list (string * A)) : option A :=
  match o with
  | [] => None
  | (k', v) :: r => if k' =? k then Some v else lookup k r
  end.

Definition has_key {A : Type} (k : string) (o : list (string * A)) : bool :=
  match lookup k o with
  | Some _ => true
  | None => false
  end.

Definition keys {A : Type} (o : list (string * A)) : list string := map fst o.

Definition is_digit (c : ascii) : bool :=
  let n := nat_of_ascii c in ((48 <=? n) && (n <=? 57))%nat.

Fixpoint decimal_value (s : string) (acc : N) : N :=
  match s with
  | EmptyString => acc
  | String c r => decimal_value r (acc * 10 + (N_of_ascii c - 48))%N
  end.

Fixpoint all_digits (s : string) : bool :=
  match s with
  | EmptyString => true
  | String c r => is_digit c && all_digits r
  end.

(** An array index is a canonical numeric string below 2^32 - 1. *)
Definition array_index (k : string) : option N :=
  match k with
  | EmptyString => None
  | String c r =>
      if all_digits k && (negb (Ascii.eqb c "0"%char) || (r =? ""))
         && (String.length k <=? 10)%nat
      then
        let n := decimal_value k 0%N in
        if (n <=? 4294967294)%N then Some n else None
      else None
  end.

Fixpoint replace_prop {A : Type} (k : string) (v : A) (o : list (string * A)) :
  list (string * A) :=
  match o with
  | [] => []
  | (k', v') :: r =>
      if k' =? k then (k', v) :: r else (k', v') :: replace_prop k v r
  end.

Fixpoint insert_index {A : Type} (n : N) (k : string) (v : A) (o : list (string * A)) :
  list (string * A) :=
  match o with
  | [] => [(k, v)]
  | (k', v') :: r =>
      match array_index k' with
      | Some n' =>
          if (n' <? n)%N then (k', v') :: insert_index n k v r
          else (k, v) :: o
      | None => (k, v) :: o
      end
  end.

(** Definition or update of an own data property. *)
Definition set_prop {A : Type} (o : list (string * A)) (k : string) (v : A) :
  list (string * A) :=
  if has_key k o then replace_prop k v o
  else match array_index k with
       | Some n => insert_index n k v o
       | None => o ++ [(k, v)]
       end.

(** The properties that an object created by an object literal inherits from
    [Object.prototype].  Each of them reads as a function, or, for
    [__proto__], as the prototype object: a truthy value. *)
Definition Object_prototype_names : list string :=
  [ "constructor"; "__defineGetter__"; "__defineSetter__"; "hasOwnProperty";
    "__lookupGetter__"; "__lookupSetter__"; "isPrototypeOf";
    "propertyIsEnumerable"; "toString"; "valueOf"; "__proto__";
    "toLocaleString" ].

Definition inherited (k : string) : bool :=
  existsb (String.eqb k) Object_prototype_names.

(** [!o[k]] on an object created by the handler: an own property is looked
    at first, an inherited one otherwise. *)
Definition falsy_at (o : object) (k : string) : bool :=
  match lookup k o with
  | Some v => negb (truthy v)
  | None => negb (inherited k)
  end.

(** [o[k] = v] where [v] is an object or null and [o] was created by an
    object literal: the key [__proto__] reaches the setter inherited from
    [Object.prototype], which replaces the prototype of [o] and defines no
    own property (ECMA-262, set Object.prototype.__proto__). *)
Definition assign (o : object) (k : string) (v : json) : object :=
  if k =? "__proto__" then o else set_prop o k v.

(** ** The specification document (ApiSpecification)

    The document is owned by the loader.  Its fields have the types that the
    handler relies on: [url], [basePath], [operationId], [description] and
    [summary] are strings, [tags] is a sequence of strings, [servers] a
    sequence of objects, [paths] a mapping from paths to mappings from
    methods to operation objects, and the values of [info] are arbitrary
    JSON.  An absent field ([undefined] or [null]) is [None]; a mapping is
    the list of its entries in its own enumeration order.  The document
    itself may be absent. *)

Record Server : Type := { url : option string }.

Record Operation : Type := {
  operationId : option string;
  description : option string;
  summary : option string;
  tags : option (list string)
}.

Definition PathItem : Type := list (string * Operation).

Record ApiSpecification : Type := {
  servers : option (list Server);
  basePath : option string;
  info : option object;
  paths : option (list (string * PathItem))
}.

(** Process configuration: [process.env.COMPONENT_NAME] and
    [process.env.RELEASE_NAME]. *)
Record Env : Type := {
  COMPONENT_NAME : option string;
  RELEASE_NAME : option string
}.

(** ** Exceptions, the logger and the response *)

(** An exception: a TypeError of the engine, with the property or the
    operation that raised it (the read of a property of undefined or null in
    Part I), or what the loader raised. *)
Inductive exn : Type :=
| TypeError (reading : string)
| LoaderError (message stack : string).

Inductive outcome (A : Type) : Type :=
| Normal (a : A)
| Throws (e : exn).
Arguments Normal {A} a.
Arguments Throws {A} e.

(** A field of a log report: [error.message] or [error.stack]. *)
Inductive report_field : Type :=
| message_of (error : exn)
| stack_of (error : exn).

Record LogRecord : Type := {
  level : string;
  text : string;
  meta : list (string * report_field)
}.

(** [JSON.stringify(value)] and [JSON.stringify(value, null, indent)]: the
    text is kept as the value it renders and the indentation. *)
Record Text : Type := { rendered : json; indent : option nat }.

Record ServerResponse : Type := {
  statusCode : nat;
  headers : list (string * string);
  body : option Text
}.

Record World : Type := {
  res : ServerResponse;
  logger : list LogRecord
}.

(** ** Control: state passing, exceptions as outcomes

    A computation takes the state to an outcome and the state that follows;
    the state is kept when an exception is raised. *)

Definition M (St A : Type) : Type := St -> outcome A * St.

Definition ret {St A : Type} (a : A) : M St A := fun s => (Normal a, s).

Definition bind {St A B : Type} (m : M St A) (f : A -> M St B) : M St B :=
  fun s =>
    match m s with
    | (Normal a, s') => f a s'
    | (Throws e, s') => (Throws e, s')
    end.

Definition lift {St A : Type} (o : outcome A) : M St A := fun s => (o, s).

(** [try { t } catch (error) { c }]. *)
Definition try_catch {St : Type} (t : M St unit) (c : exn -> M St unit) : M St unit :=
  fun s =>
    match t s with
    | (Normal a, s') => (Normal a, s')
    | (Throws e, s') => c e s'
    end.

Notation "x <- m ;; k" := (bind m (fun x => k))
  (at level 61, m at next level, right associativity).
Notation "m ;; k" := (bind m (fun _ => k))
  (at level 61, right associativity).

(** Optional chaining [a?.f]. *)
Definition chain {A B : Type} (a : option A) (f : A -> option B) : option B :=
  match a with
  | Some x => f x
  | None => None
  end.
Notation "a ?. f" := (chain a f) (at level 40, left associativity).

(** [a || b] where both may be undefined. *)
Definition opt_or (a b : option string) : option string :=
  match a with
  | Some s => if s =? "" then b else a
  | None => b
  end.

(** [for (k in o) { ... o[k] ... }]: every own property is visited once, in
    enumeration order, with its value. *)
Definition for_in {A S : Type} (o : list (string * A))
    (body : S -> string -> A -> S) (s : S) : S :=
  fold_left (fun s kv => body s (fst kv) (snd kv)) o s.

(** *** The collaborators *)

Definition same_header (a b : string) : bool := toUpperCase a =? toUpperCase b.

Definition set_statusCode (n : nat) : M World unit :=
  fun w =>
    (Normal tt,
     {| res := {| statusCode := n; headers := headers (res w); body := body (res w) |};
        logger := logger w |}).

Definition setHeader (name value : string) : M World unit :=
  fun w =>
    (Normal tt,
     {| res := {| statusCode := statusCode (res w);
                  headers := filter (fun h => negb (same_header (fst h) name)) (headers (res w))
                             ++ [(name, value)];
                  body := body (res w) |};
        logger := logger w |}).

Definition res_end (t : Text) : M World unit :=
  fun w =>
    (Normal tt,
     {| res := {| statusCode := statusCode (res w); headers := headers (res w);
                  body := Some t |};
        logger := logger w |}).

Definition logger_error (message : string) (fields : list (string * report_field)) :
  M World unit :=
  fun w =>
    (Normal tt,
     {| res := res w;
        logger := logger w ++ [ {| level := "error"; text := message; meta := fields |} ] |}).

Definition JSON_stringify (value : json) (space : option nat) : Text :=
  {| rendered := value; indent := space |}.

(** ** The handler *)

Definition default_basePath : string := "/tmf-api/geographicAddressManagement/v4".

(** [swaggerDoc.basePath]: a property read that throws on undefined and null. *)
Definition read_basePath (swaggerDoc : option ApiSpecification) : outcome (option string) :=
  match swaggerDoc with
  | Some d => Normal (basePath d)
  | None => Throws (TypeError "basePath")
  end.

(** [swaggerDoc?.servers?.[0]?.url || swaggerDoc.basePath || '/tmf-api/...']:
    the second operand is evaluated only when the first is falsy. *)
Definition resolve_basePath (swaggerDoc : option ApiSpecification) : outcome string :=
  match swaggerDoc ?. servers ?. (@hd_error Server) ?. url with
  | Some u =>
      if u =? "" then
        match read_basePath swaggerDoc with
        | Normal b => Normal (str_or b default_basePath)
        | Throws e => Throws e
        end
      else Normal u
  | None =>
      match read_basePath swaggerDoc with
      | Normal b => Normal (str_or b default_basePath)
      | Throws e => Throws e
      end
  end.

(** The object literal of the self link. *)
Definition self_literal (swaggerDoc : option ApiSpecification)
    (basePath releaseName componentName : string) : object :=
  [ ("href", JStr basePath);
    ("id", JStr releaseName);
    ("name", JStr componentName);
    ("status", JStr "running");
    ("version", js_or (swaggerDoc ?. info ?. lookup "version") (JStr "4.0.1"));
    ("title", js_or (swaggerDoc ?. info ?. lookup "title")
                (JStr "Geographic Address Management API"));
    ("description", js_or (swaggerDoc ?. info ?. lookup "description") (JStr ""));
    ("swagger-ui", JStr (cleanPath (basePath ++ "/api-docs")));
    ("openapi", JStr (cleanPath (basePath ++ "/openapi"))) ].

(** The body of the loop over [swaggerDoc.info]. *)
Definition merge_info (self : object) (infoKey : string) (value : json) : object :=
  if falsy_at self infoKey then assign self infoKey value else self.

(** The object literal of an operation link, with the [tags] that the next
    statement adds to it: [linksObject[operation.operationId]] is the object
    that was just stored (under the key [__proto__], the prototype that was
    just installed). *)
Definition link_literal (basePath pathKey methodKey id : string) (operation : Operation) : object :=
  let link :=
    [ ("href", JStr (stripTrailingSlash basePath ++ pathKey));
      ("method", JStr (toUpperCase methodKey));
      ("description", JStr (str_or (opt_or (description operation) (summary operation)) ""));
      ("operationId", JStr id) ] in
  match tags operation with
  | Some (t :: ts) => assign link "tags" (JArr (map JStr (t :: ts)))
  | Some [] => link
  | None => link
  end.

(** The body of the loops over [swaggerDoc.paths] and its methods. *)
Definition link_operation (basePath pathKey : string) (linksObject : object)
    (methodKey : string) (operation : Operation) : object :=
  match operationId operation with
  | Some id =>
      if id =? "" then linksObject
      else assign linksObject id (JObj (link_literal basePath pathKey methodKey id operation))
  | None => linksObject
  end.

Definition error_body : json :=
  JObj [ ("error", JStr "Internal Server Error");
         ("message", JStr "Unable to generate entrypoint response") ].

(** [entrypoint(req, res)].  The request is not read.  [getSwaggerDoc] is the
    outcome of the call of the specification loader, [env] is [process.env]. *)
Definition entrypoint (getSwaggerDoc : outcome (option ApiSpecification)) (env : Env) :
  M World unit :=
  try_catch
    ( swaggerDoc <- lift getSwaggerDoc ;;
      basePath <- lift (resolve_basePath swaggerDoc) ;;
      let componentName := str_or (COMPONENT_NAME env) "geographicaddress" in
      let releaseName := str_or (RELEASE_NAME env) "tmf673" in
      let self := self_literal swaggerDoc basePath releaseName componentName in
      let self :=
        match swaggerDoc ?. info with
        | Some i => for_in i merge_info self
        | None => self
        end in
      let linksObject := [ ("self", JObj self) ] in
      let linksObject :=
        match swaggerDoc ?. paths with
        | Some ps =>
            for_in ps (fun linksObject pathKey item =>
                         for_in item (link_operation basePath pathKey) linksObject)
                   linksObject
        | None => linksObject
        end in
      let responseJSON := JObj [ ("_links", JObj linksObject) ] in
      set_statusCode 200 ;;
      setHeader "Content-Type" "application/json" ;;
      res_end (JSON_stringify responseJSON (Some 2)) )
    (fun error =>
       logger_error "Entrypoint error"
         [ ("error", message_of error); ("stack", stack_of error) ] ;;
       set_statusCode 500 ;;
       setHeader "Content-Type" "application/json" ;;
       res_end (JSON_stringify error_body None)).

(** ** Reading a response *)

Definition as_object (v : json) : option object :=
  match v with
  | JObj o => Some o
  | _ => None
  end.

(** The [_links] mapping of the document that was sent. *)
Definition links_of (w : World) : option object :=
  body (res w) ?. (fun t => as_object (rendered t)) ?. lookup "_links" ?. as_object.

(** The entry of [_links] named [name]. *)
Definition link_of (name : string) (w : World) : option object :=
  links_of w ?. lookup name ?. as_object.

(** The operations of a document in traversal order: paths in their order,
    and the methods of each path in theirs. *)
Definition operations (d : ApiSpecification) : list (string * (string * Operation)) :=
  match paths d with
  | Some ps => flat_map (fun p => map (fun m => (fst p, m)) (snd p)) ps
  | None => []
  end.

(** An operation carries a non-empty operationId [id]. *)
Definition named (id : string) (operation : Operation) : Prop :=
  operationId operation = Some id /\ id <> "".

(** Membership of a name in a list of names. *)
Definition mem (k : string) (names : list string) : bool := existsb (String.eqb k) names.

(** The names of [l] in the order of their first occurrence, leaving out
    those of [seen]. *)
Fixpoint first_occurrences (seen l : list string) : list string :=
  match l with
  | [] => []
  | x :: r =>
      if mem x seen then first_occurrences seen r
      else x :: first_occurrences (x :: seen) r
  end.

(** The name under which the loops store a link for an operation, if they
    store one: its operationId, when it is not empty and not [__proto__]. *)
Definition link_name (operation : Operation) : option string :=
  match operationId operation with
  | Some id => if (id =? "") || (id =? "__proto__") then None else Some id
  | None => None
  end.

(** The names under which the operations [ops] are linked, in traversal
    order. *)
Definition link_names (ops : list (string * (string * Operation))) : list string :=
  flat_map (fun x => match link_name (snd (snd x)) with
                     | Some id => [id]
                     | None => []
                     end) ops.

(** The state of the world after the catch block has handled [error]. *)
Definition failed (error : exn) (w : World) : World :=
  {| res := {| statusCode := 500;
               headers := filter (fun h => negb (same_header (fst h) "Content-Type"))
                                 (headers (res w))
                          ++ [("Content-Type", "application/json")];
               body := Some {| rendered := error_body; indent := None |} |};
     logger := logger w
               ++ [ {| level := "error"; text := "Entrypoint error";
                       meta := [ ("error", message_of error);
                                 ("stack", stack_of error) ] |} ] |}.

(** The state of the world after the document [responseJSON] was sent. *)
Definition sent (responseJSON : json) (w : World) : World :=
  {| res := {| statusCode := 200;
               headers := filter (fun h => negb (same_header (fst h) "Content-Type"))
                                 (headers (res w))
                          ++ [("Content-Type", "application/json")];
               body := Some {| rendered := responseJSON; indent := Some 2 |} |};
     logger := logger w |}.

(** The names of the explicit fields of the self link. *)
Definition explicit_fields : list string :=
  [ "href"; "id"; "name"; "status"; "version"; "title"; "description";
    "swagger-ui"; "openapi" ].

(** The base path resolved for a document that is present. *)
Definition resolved (d : ApiSpecification) : string :=
  match resolve_basePath (Some d) with
  | Normal b => b
  | Throws _ => default_basePath
  end.

(** The self link after the loop over [info]. *)
Definition self_entry (d : ApiSpecification) (env : Env) : object :=
  let self :=
    self_literal (Some d) (resolved d) (str_or (RELEASE_NAME env) "tmf673")
      (str_or (COMPONENT_NAME env) "geographicaddress") in
  match info d with
  | Some i => for_in i merge_info self
  | None => self
  end.

(** One step of the loops over the operations, on the flattened traversal. *)
Definition link_step (base : string) (linksObject : object)
    (x : string * (string * Operation)) : object :=
  link_operation base (fst x) linksObject (fst (snd x)) (snd (snd x)).

(** The links after the operations [ops] were visited, starting from [links]. *)
Definition links_after (base : string) (ops : list (string * (string * Operation)))
    (links : object) : object :=
  fold_left (link_step base) ops links.

(** [linksObject] when the document is sent. *)
Definition links_document (d : ApiSpecification) (env : Env) : object :=
  links_after (resolved d) (operations d) [ ("self", JObj (self_entry d env)) ].

(** The fallback of the base path in words: the url of the first server when
    there is one and it is not empty, otherwise [basePath] when it is present
    and not empty, otherwise the default. *)
Definition present_nonempty (s : option string) : option string :=
  match s with
  | Some EmptyString => None
  | Some (String _ _) => s
  | None => None
  end.

Definition legacy_or_default (d : ApiSpecification) : string :=
  match present_nonempty (basePath d) with
  | Some b => b
  | None => default_basePath
  end.

Definition stated_fallback (d : ApiSpecification) : string :=
  match servers d with
  | Some (first :: _) =>
      match present_nonempty (url first) with
      | Some u => u
      | None => legacy_or_default d
      end
  | Some [] => legacy_or_default d
  | None => legacy_or_default d
  end.

(** The description of a link in words: the description of the operation,
    else its summary, else the empty string. *)
Definition stated_description (operation : Operation) : string :=
  match present_nonempty (description operation) with
  | Some s => s
  | None =>
      match present_nonempty (summary operation) with
      | Some s => s
      | None => ""
      end
  end.

(** *** Sample inputs *)

Definition no_env : Env := {| COMPONENT_NAME := None; RELEASE_NAME := None |}.

Definition fresh_world : World :=
  {| res := {| statusCode := 200; headers := []; body := None |}; logger := [] |}.

(** [{}] *)
Definition empty_document : ApiSpecification :=
  {| servers := None; basePath := None; info := None; paths := None |}.

(** [{paths: {"/x": {get: {operationId: id}}}}] *)
Definition document_with_operation (id : string) : ApiSpecification :=
  {| servers := None; basePath := None; info := None;
     paths := Some [ ("/x", [ ("get", {| operationId := Some id; description := None;
                                        summary := None; tags := None |}) ]) ] |}.

(** [{paths: {"/foo": {get: {operationId: "listFoo", tags: ["a"]}}}}] *)
Definition listFoo_document : ApiSpecification :=
  {| servers := None; basePath := None; info := None;
     paths := Some [ ("/foo", [ ("get", {| operationId := Some "listFoo"; description := None;
                                          summary := None; tags := Some ["a"] |}) ]) ] |}.

(** [{info: {description: null}}] *)
Definition null_description_document : ApiSpecification :=
  {| servers := None; basePath := None; info := Some [ ("description", JNull) ];
     paths := None |}.

(** [{basePath: ""}] *)
Definition empty_basePath_document : ApiSpecification :=
  {| servers := None; basePath := Some ""; info := None; paths := None |}.

(** [{servers: [{url: u}], paths: {"/foo": {get: {operationId: "listFoo"}}}}] *)
Definition served_document (u : string) : ApiSpecification :=
  {| servers := Some [ {| url := Some u |} ]; basePath := None; info := None;
     paths := Some [ ("/foo", [ ("get", {| operationId := Some "listFoo"; description := None;
                                          summary := None; tags := None |}) ]) ] |}.

(** The self link made of the default literals only. *)
Definition default_self : object :=
  [ ("href", JStr "/tmf-api/geographicAddressManagement/v4");
    ("id", JStr "tmf673");
    ("name", JStr "geographicaddress");
    ("status", JStr "running");
    ("version", JStr "4.0.1");
    ("title", JStr "Geographic Address Management API");
    ("description", JStr "");
    ("swagger-ui", JStr "/tmf-api/geographicAddressManagement/v4/api-docs");
    ("openapi", JStr "/tmf-api/geographicAddressManagement/v4/openapi") ].

(** [{info: {description: null, contact: {}}, paths: {"/x": {get:
    {operationId: "__proto__", tags: ["a"]}, put: {operationId: "tags",
    tags: ["a"]}}}}] *)
Definition reserved_document : ApiSpecification :=
  {| servers := None; basePath := None;
     info := Some [ ("description", JNull); ("contact", JObj []) ];
     paths := Some [ ("/x", [ ("get", {| operationId := Some "__proto__"; description := None;
                                        summary := None; tags := Some ["a"] |});
                              ("put", {| operationId := Some "tags"; description := None;
                                         summary := None; tags := Some ["a"] |}) ]) ] |}.

(** [{info: {title: "Catalog", description: false, contact: {}, toString: "x"},
    paths: {"/a": {get: {operationId: "listA"}, post: {operationId: "addA"}},
            "/b": {get: {operationId: "listA"}}}}] *)
Definition catalog_document : ApiSpecification :=
  {| servers := None; basePath := None;
     info := Some [ ("title", JStr "Catalog"); ("description", JBool false);
                    ("contact", JObj []); ("toString", JStr "x") ];
     paths := Some [ ("/a", [ ("get", {| operationId := Some "listA"; description := None;
                                        summary := None; tags := None |});
                              ("post", {| operationId := Some "addA"; description := None;
                                          summary := None; tags := None |}) ]);
                     ("/b", [ ("get", {| operationId := Some "listA"; description := None;
                                        summary := None; tags := None |}) ]) ] |}.

(** * Part II: the object store

    The specification document is a graph of objects that the loader owns;
    the handler receives a reference to it.  Here the objects live in a
    store, a property holds a primitive or a reference, and the handler is
    embedded statement by statement with its allocations, reads and
    writes. *)

Module Store.

Inductive primitive : Type :=
| Undefined
| Null
| Bool (b : bool)
| Number (n : float)
| Str (s : string)
| Native (name : string).    (* a built-in object or function of the engine *)

Inductive value : Type :=
| Prim (p : primitive)
| Ref (l : nat).             (* an object or array of the store *)

Inductive prototype : Type :=
| Builtin                    (* Object.prototype, or Array.prototype for an array *)
| At (l : nat)
| NoPrototype.

(** An object of the store: its own enumerable properties in enumeration
    order, and its own properties that are not enumerable (the [length] of an
    array). *)
Record cell : Type := {
  is_array : bool;
  proto : prototype;
  props : list (string * value);
  hidden : list (string * value)
}.

Definition heap : Type := list cell.

Record State : Type := { store : heap; world : World }.

(** ToBoolean. *)
Definition truthy (v : value) : bool :=
  match v with
  | Ref _ => true
  | Prim Undefined => false
  | Prim Null => false
  | Prim (Bool b) => b
  | Prim (Number n) => negb (PrimFloat.eqb n PrimFloat.zero || negb (PrimFloat.eqb n n))
  | Prim (Str s) => negb (s =? "")
  | Prim (Native _) => true
  end.

Definition nullish (v : value) : bool :=
  match v with
  | Prim Undefined => true
  | Prim Null => true
  | _ => false
  end.

(** [put l c h]: the store [h] with the object at [l] replaced by [c]. *)
Fixpoint put (l : nat) (c : cell) (h : heap) : heap :=
  match h with
  | [] => []
  | x :: r =>
      match l with
      | O => c :: r
      | S n => x :: put n c r
      end
  end.

Definition with_props (c : cell) (ps : list (string * value)) : cell :=
  {| is_array := is_array c; proto := proto c; props := ps; hidden := hidden c |}.

Definition with_hidden (c : cell) (ps : list (string * value)) : cell :=
  {| is_array := is_array c; proto := proto c; props := props c; hidden := ps |}.

Definition with_proto (c : cell) (p : prototype) : cell :=
  {| is_array := is_array c; proto := p; props := props c; hidden := hidden c |}.

(** The object that an object literal creates. *)
Definition plain_object (ps : list (string * value)) : cell :=
  {| is_array := false; proto := Builtin; props := ps; hidden := [] |}.

(** The value of the accessor [__proto__] on the object [c]. *)
Definition prototype_value (c : cell) : value :=
  match proto c with
  | At p => Ref p
  | Builtin => Prim (Native (if is_array c then "Array.prototype" else "Object.prototype"))
  | NoPrototype => Prim Null
  end.

(** The value of [v] in the store [h], as the JSON tree that it denotes:
    a property that holds [undefined] or a function is left out of an object
    and reads [null] in an array. *)
Fixpoint render_tree (fuel : nat) (h : heap) (v : value) : option json :=
  match v with
  | Prim Undefined => None
  | Prim (Native _) => None
  | Prim Null => Some JNull
  | Prim (Bool b) => Some (JBool b)
  | Prim (Number n) => Some (JNum n)
  | Prim (Str s) => Some (JStr s)
  | Ref l =>
      match fuel with
      | O => None
      | S f =>
          match nth_error h l with
          | None => None
          | Some c =>
              if is_array c then
                Some (JArr (map (fun kv => match render_tree f h (snd kv) with
                                           | Some j => j
                                           | None => JNull
                                           end) (props c)))
              else
                Some (JObj (flat_map (fun kv => match render_tree f h (snd kv) with
                                                | Some j => [(fst kv, j)]
                                                | None => []
                                                end) (props c)))
          end
      end
  end.

(** The engine.  What the handler writes does not depend on the results of
    the coercions, nor on the reads that no object of the store answers; the
    store model is stated for every behaviour of these.  None of them writes
    to the store: the objects of the store hold data, not functions. *)
Class Engine : Type := {
  (** ToString and ToPropertyKey of a value that is not a string; for an
      object of the specification it reads the object. *)
  ToString : value -> outcome string;
  (** [v > 0]. *)
  GreaterThanZero : value -> outcome bool;
  (** The member [k], other than [__proto__], of the built-in prototypes of
      a plain object ([false]) or of an array ([true]). *)
  builtin_member : bool -> string -> primitive;
  (** The property [k] of a primitive or built-in receiver. *)
  primitive_member : primitive -> string -> primitive;
  (** The keys that [for ... in] enumerates on a primitive or built-in. *)
  primitive_keys : primitive -> list string;
  (** [JSON.stringify(v, null, 2)], as the value that the text renders. *)
  render : heap -> value -> outcome json
}.

Section Handler.

Context {engine : Engine}.

(** [o[k]] resolved from the object at [l] along the prototype chain;
    [accessor] is what [__proto__] yields for the receiver. *)
Fixpoint get_from (fuel : nat) (h : heap) (accessor : value) (l : nat) (k : string) : value :=
  match nth_error h l with
  | None => Prim Undefined
  | Some c =>
      match lookup k (props c ++ hidden c) with
      | Some v => v
      | None =>
          match proto c with
          | At p =>
              match fuel with
              | S f => get_from f h accessor p k
              | O => Prim Undefined
              end
          | NoPrototype => Prim Undefined
          | Builtin =>
              if k =? "__proto__" then accessor
              else Prim (builtin_member (is_array c) k)
          end
      end
  end.

(** [v.k] and [v[k]].  A chain of prototypes is shorter than the store. *)
Definition get (v : value) (k : string) : M heap value :=
  fun h =>
    match v with
    | Prim Undefined => (Throws (TypeError k), h)
    | Prim Null => (Throws (TypeError k), h)
    | Prim p => (Normal (Prim (primitive_member p k)), h)
    | Ref l =>
        match nth_error h l with
        | Some c => (Normal (get_from (length h) h (prototype_value c) l k), h)
        | None => (Normal (Prim Undefined), h)
        end
    end.

(** [v?.k] and [v?.[k]]. *)
Definition opt_get (v : value) (k : string) : M heap value :=
  if nullish v then ret (Prim Undefined) else get v k.

(** [a || b]. *)
Definition or_else (a : value) (b : M heap value) : M heap value :=
  if truthy a then ret a else b.

Definition when (b : bool) (m : M heap unit) : M heap unit :=
  if b then m else ret tt.

(** The keys of [for (k in o)]: the own enumerable keys, then those of the
    prototype chain that were not met before. *)
Fixpoint enumerate (fuel : nat) (h : heap) (l : nat) (seen : list string) : list string :=
  match nth_error h l with
  | None => []
  | Some c =>
      filter (fun k => negb (existsb (String.eqb k) seen)) (keys (props c))
      ++ match proto c with
         | At p =>
             match fuel with
             | S f => enumerate f h p (seen ++ keys (props c ++ hidden c))
             | O => []
             end
         | Builtin => []
         | NoPrototype => []
         end
  end.

Fixpoint for_each (ks : list string) (body : string -> M heap unit) : M heap unit :=
  match ks with
  | [] => ret tt
  | k :: r => body k ;; for_each r body
  end.

(** [for (k in v) body].  The keys are those of [v] when the loop starts:
    the bodies of the handler's loops do not write to the object that is
    enumerated. *)
Definition for_in (v : value) (body : string -> M heap unit) : M heap unit :=
  fun h =>
    match v with
    | Ref l => for_each (enumerate (length h) h l []) body h
    | Prim Undefined => (Normal tt, h)
    | Prim Null => (Normal tt, h)
    | Prim p => for_each (primitive_keys p) body h
    end.

(** An object literal: a new object at the end of the store. *)
Definition literal (ps : list (string * value)) : M heap value :=
  fun h => (Normal (Ref (length h)), h ++ [ plain_object ps ]).

(** Whether the accessor [__proto__] of [Object.prototype] is what a chain
    starting at [p] provides for the key [__proto__]. *)
Fixpoint accessor_inherited (fuel : nat) (h : heap) (p : prototype) : bool :=
  match p with
  | Builtin => true
  | NoPrototype => false
  | At l =>
      match nth_error h l with
      | None => false
      | Some c =>
          if has_key "__proto__" (props c ++ hidden c) then false
          else match fuel with
               | S f => accessor_inherited f h (proto c)
               | O => false
               end
      end
  end.

(** Whether the chain starting at [p] passes through the object at [target]. *)
Fixpoint on_chain (fuel : nat) (h : heap) (target : nat) (p : prototype) : bool :=
  match p with
  | At l =>
      (l =? target)%nat
      || match nth_error h l with
         | Some c =>
             match fuel with
             | S f => on_chain f h target (proto c)
             | O => false
             end
         | None => false
         end
  | Builtin => false
  | NoPrototype => false
  end.

(** [target[k] = v] in strict mode.  An own property is updated; the key
    [__proto__] reaches the inherited accessor, which replaces the prototype
    when [v] is an object or null and refuses a cycle; any other key is
    defined as a new own property.  A built-in receiver is not an object of
    the store.  (The handler assigns to objects made by object literals; the
    adjustment of [length] on an array target is not represented.) *)
Definition set (target : value) (k : string) (v : value) : M heap unit :=
  fun h =>
    match target with
    | Prim Undefined => (Throws (TypeError k), h)
    | Prim Null => (Throws (TypeError k), h)
    | Prim (Native _) => (Normal tt, h)
    | Prim _ => (Throws (TypeError k), h)
    | Ref l =>
        match nth_error h l with
        | None => (Normal tt, h)
        | Some c =>
            if has_key k (props c) then
              (Normal tt, put l (with_props c (replace_prop k v (props c))) h)
            else if has_key k (hidden c) then
              (Normal tt, put l (with_hidden c (replace_prop k v (hidden c))) h)
            else if (k =? "__proto__") && accessor_inherited (length h) h (proto c) then
              match v with
              | Ref p =>
                  if on_chain (length h) h l (At p)
                  then (Throws (TypeError "__proto__"), h)
                  else (Normal tt, put l (with_proto c (At p)) h)
              | Prim Null => (Normal tt, put l (with_proto c NoPrototype) h)
              | Prim _ => (Normal tt, h)
              end
            else (Normal tt, put l (with_props c (set_prop (props c) k v)) h)
        end
    end.

(** ToString, ToPropertyKey. *)
Definition to_string (v : value) : M heap string :=
  match v with
  | Prim (Str s) => ret s
  | _ => lift (ToString v)
  end.

(** [str?.replace(/\/$/,'') || str].  No built-in prototype other than that
    of strings has a member [replace], and no property of the store is a
    function: on another receiver the call raises a TypeError. *)
Definition stripTrailingSlash (str : value) : M heap value :=
  match str with
  | Prim Undefined => ret str
  | Prim Null => ret str
  | Prim (Str s) => ret (Prim (Str (stripTrailingSlash s)))
  | _ => lift (Throws (TypeError "replace"))
  end.

(** [a + b] where [b] is a string. *)
Definition plus (a : value) (b : string) : M heap value :=
  s <- to_string a ;; ret (Prim (Str (s ++ b))).

(** The body of the loop over the methods of a path. *)
Definition link_operation (basePath : value) (pathKey methodKey : string)
    (operation linksObject : value) : M heap unit :=
  id <- get operation "operationId" ;;
  when (truthy id)
    ( id <- get operation "operationId" ;;
      key <- to_string id ;;
      stripped <- stripTrailingSlash basePath ;;
      href <- plus stripped pathKey ;;
      description <- get operation "description" ;;
      description <- or_else description
                       ( summary <- get operation "summary" ;;
                         or_else summary (ret (Prim (Str ""))) ) ;;
      operationId <- get operation "operationId" ;;
      link <- literal [ ("href", href);
                        ("method", Prim (Str (toUpperCase methodKey)));
                        ("description", description);
                        ("operationId", operationId) ] ;;
      set linksObject key link ;;
      tags <- get operation "tags" ;;
      positive <- ( if truthy tags
                    then tags <- get operation "tags" ;;
                         length <- get tags "length" ;;
                         lift (GreaterThanZero length)
                    else ret false ) ;;
      when positive
        ( id <- get operation "operationId" ;;
          key <- to_string id ;;
          target <- get linksObject key ;;
          tags <- get operation "tags" ;;
          set target "tags" tags ) ).

(** The body of the loop over [swaggerDoc.info]. *)
Definition merge_info (swaggerDoc linksObject : value) (infoKey : string) : M heap unit :=
  self <- get linksObject "self" ;;
  current <- get self infoKey ;;
  when (negb (truthy current))
    ( self <- get linksObject "self" ;;
      info <- get swaggerDoc "info" ;;
      value <- get info infoKey ;;
      set self infoKey value ).

(** The statements of the try block up to [responseJSON]. *)
Definition construct (getSwaggerDoc : outcome value) (env : Env) : M heap value :=
  swaggerDoc <- lift getSwaggerDoc ;;
  servers <- opt_get swaggerDoc "servers" ;;
  first <- opt_get servers "0" ;;
  url <- opt_get first "url" ;;
  basePath <- or_else url
                ( legacy <- get swaggerDoc "basePath" ;;
                  or_else legacy (ret (Prim (Str default_basePath))) ) ;;
  let componentName := str_or (COMPONENT_NAME env) "geographicaddress" in
  let releaseName := str_or (RELEASE_NAME env) "tmf673" in
  info <- opt_get swaggerDoc "info" ;;
  version <- opt_get info "version" ;;
  version <- or_else version (ret (Prim (Str "4.0.1"))) ;;
  info <- opt_get swaggerDoc "info" ;;
  title <- opt_get info "title" ;;
  title <- or_else title (ret (Prim (Str "Geographic Address Management API"))) ;;
  info <- opt_get swaggerDoc "info" ;;
  description <- opt_get info "description" ;;
  description <- or_else description (ret (Prim (Str ""))) ;;
  text <- to_string basePath ;;
  let swagger_ui := cleanPath (text ++ "/api-docs") in
  text <- to_string basePath ;;
  let openapi := cleanPath (text ++ "/openapi") in
  self <- literal [ ("href", basePath);
                    ("id", Prim (Str releaseName));
                    ("name", Prim (Str componentName));
                    ("status", Prim (Str "running"));
                    ("version", version);
                    ("title", title);
                    ("description", description);
                    ("swagger-ui", Prim (Str swagger_ui));
                    ("openapi", Prim (Str openapi)) ] ;;
  linksObject <- literal [ ("self", self) ] ;;
  info <- opt_get swaggerDoc "info" ;;
  when (truthy info)
    ( info <- get swaggerDoc "info" ;;
      for_in info (merge_info swaggerDoc linksObject) ) ;;
  paths <- opt_get swaggerDoc "paths" ;;
  when (truthy paths)
    ( paths <- get swaggerDoc "paths" ;;
      for_in paths (fun pathKey =>
        paths <- get swaggerDoc "paths" ;;
        item <- get paths pathKey ;;
        for_in item (fun methodKey =>
          paths <- get swaggerDoc "paths" ;;
          item <- get paths pathKey ;;
          operation <- get item methodKey ;;
          link_operation basePath pathKey methodKey operation linksObject)) ) ;;
  literal [ ("_links", linksObject) ].

(** The statements of the try block from the loops over the operations to
    [responseJSON]: the last part of [construct], where [linksObject] holds
    the self link. *)
Definition link_operations (swaggerDoc basePath linksObject : value) : M heap value :=
  paths <- opt_get swaggerDoc "paths" ;;
  when (truthy paths)
    ( paths <- get swaggerDoc "paths" ;;
      for_in paths (fun pathKey =>
        paths <- get swaggerDoc "paths" ;;
        item <- get paths pathKey ;;
        for_in item (fun methodKey =>
          paths <- get swaggerDoc "paths" ;;
          item <- get paths pathKey ;;
          operation <- get item methodKey ;;
          link_operation basePath pathKey methodKey operation linksObject)) ) ;;
  literal [ ("_links", linksObject) ].

Definition in_store {A : Type} (m : M heap A) : M State A :=
  fun st =>
    match m (store st) with
    | (r, h) => (r, {| store := h; world := world st |})
    end.

Definition in_world {A : Type} (m : M World A) : M State A :=
  fun st =>
    match m (world st) with
    | (r, w) => (r, {| store := store st; world := w |})
    end.

(** [entrypoint(req, res)] on the store.  The report handed to the logger
    and the error body are literals that hold no reference into the store;
    they are kept in the world as in Part I. *)
Definition entrypoint (getSwaggerDoc : outcome value) (env : Env) : M State unit :=
  try_catch
    ( responseJSON <- in_store (construct getSwaggerDoc env) ;;
      in_world (set_statusCode 200) ;;
      in_world (setHeader "Content-Type" "application/json") ;;
      text <- in_store (fun h => (render h responseJSON, h)) ;;
      in_world (res_end {| rendered := text; indent := Some 2 |}) )
    (fun error =>
       in_world
         ( logger_error "Entrypoint error"
             [ ("error", message_of error); ("stack", stack_of error) ] ;;
           set_statusCode 500 ;;
           setHeader "Content-Type" "application/json" ;;
           res_end (JSON_stringify error_body None) )).

End Handler.

(** ** The store at entry and the stores that follow

    [h0] is the store when the handler is entered.  Its objects are data:
    their prototype is the built-in one and their properties hold primitives
    or references to objects of [h0]. *)

Definition old (n : nat) (v : value) : Prop :=
  match v with
  | Ref l => l < n
  | Prim _ => True
  end.

Definition data_cell (n : nat) (c : cell) : Prop :=
  proto c = Builtin /\ Forall (fun kv => old n (snd kv)) (props c ++ hidden c).

Definition data_store (h : heap) : Prop := Forall (data_cell (length h)) h.

(** The store [h] is [h0] followed by objects allocated since. *)
Definition keeps (h0 h : heap) : Prop := exists fresh, h = h0 ++ fresh.

(** A computation that started from a store satisfying [P] ends in a store
    satisfying [Q]; when it raises, the store still keeps [h0]. *)
Definition triple {A : Type} (h0 : heap) (P : heap -> Prop) (m : M heap A)
    (Q : A -> heap -> Prop) : Prop :=
  forall h, P h ->
    match m h with
    | (Normal a, h') => Q a h'
    | (Throws _, h') => keeps h0 h'
    end.

(** A computation that only reads: it leaves the store as it is, its result
    satisfies [G], and it is the same in every store that keeps [h0]. *)
Definition reads {A : Type} (h0 : heap) (G : A -> Prop) (m : M heap A) : Prop :=
  exists r, (forall a, r = Normal a -> G a)
            /\ forall h, keeps h0 h -> m h = (r, h).

(** While the loop over [info] runs: [linksObject], at [L], is the literal
    holding the self link, which is at [S]; both were allocated by the
    handler. *)
Definition self_invariant (h0 : heap) (L S : nat) (h : heap) : Prop :=
  keeps h0 h
  /\ nth_error h L = Some (plain_object [ ("self", Ref S) ])
  /\ length h0 <= S
  /\ length h0 <= L
  /\ S <> L.

(** While the loops over the operations run: [linksObject], at [L], was
    allocated by the handler. *)
Definition links_invariant (h0 : heap) (L : nat) (h : heap) : Prop :=
  keeps h0 h /\ length h0 <= L /\ L < length h.

(** After [linksObject[key] = link]: [link], at [e], was allocated by the
    handler and is what [linksObject[key]] reads. *)
Definition linked_invariant {engine : Engine} (h0 : heap) (L e : nat) (key : string)
    (h : heap) : Prop :=
  keeps h0 h /\ length h0 <= L /\ L < length h /\ length h0 <= e
  /\ get (Ref L) key h = (Normal (Ref e), h).

(** ** A sample engine and sample stores

    An engine that is enough for documents whose base path and operationIds
    are strings; its rendering is the tree of the value. *)

Definition sample_ToString (v : value) : outcome string :=
  match v with
  | Prim (Str s) => Normal s
  | Prim (Bool true) => Normal "true"
  | Prim (Bool false) => Normal "false"
  | Prim Null => Normal "null"
  | Prim Undefined => Normal "undefined"
  | _ => Throws (TypeError "toString")
  end.

Definition sample_GreaterThanZero (v : value) : outcome bool :=
  match v with
  | Prim (Number n) => Normal (PrimFloat.ltb PrimFloat.zero n)
  | _ => Normal false
  end.

Definition sample_builtin_member (array : bool) (k : string) : primitive :=
  if inherited k then Native k else Undefined.

Definition sample_render (h : heap) (v : value) : outcome json :=
  match render_tree (length h) h v with
  | Some j => Normal j
  | None => Throws (TypeError "stringify")
  end.

Definition sample_engine : Engine :=
  {| ToString := sample_ToString;
     GreaterThanZero := sample_GreaterThanZero;
     builtin_member := sample_builtin_member;
     primitive_member := fun _ _ => Undefined;
     primitive_keys := fun _ => [];
     render := sample_render |}.

Definition array_of (items : list (string * value)) (n : float) : cell :=
  {| is_array := true; proto := Builtin; props := items;
     hidden := [ ("length", Prim (Number n)) ] |}.

(** [{paths: {"/foo": {get: {operationId: "listFoo", tags: ["a"]}}}}], the
    document at location 4. *)
Definition listFoo_store : heap :=
  [ array_of [ ("0", Prim (Str "a")) ] 1%float;
    plain_object [ ("operationId", Prim (Str "listFoo")); ("tags", Ref 0) ];
    plain_object [ ("get", Ref 1) ];
    plain_object [ ("/foo", Ref 2) ];
    plain_object [ ("paths", Ref 3) ] ].

(** [{info: {description: null, contact: {}}, paths: {"/x": {get:
    {operationId: "__proto__", tags: ["a"]}, put: {operationId: "tags",
    tags: ["a"]}}}}], the document at location 7. *)
Definition reserved_store : heap :=
  [ array_of [ ("0", Prim (Str "a")) ] 1%float;
    plain_object [ ("operationId", Prim (Str "__proto__")); ("tags", Ref 0) ];
    plain_object [ ("operationId", Prim (Str "tags")); ("tags", Ref 0) ];
    plain_object [ ("get", Ref 1); ("put", Ref 2) ];
    plain_object [ ("/x", Ref 3) ];
    plain_object [];
    plain_object [ ("description", Prim Null); ("contact", Ref 5) ];
    plain_object [ ("info", Ref 6); ("paths", Ref 4) ] ].

(** [{paths: {"/x": {get: null}}}], the document at location 2. *)
Definition null_operation_store : heap :=
  [ plain_object [ ("get", Prim Null) ];
    plain_object [ ("/x", Ref 0) ];
    plain_object [ ("paths", Ref 1) ] ].

Definition sample_entrypoint (getSwaggerDoc : outcome value) (env : Env) : M State unit :=
  entrypoint (engine := sample_engine) getSwaggerDoc env.

End Store.

(** * Part I: properties *)

(** ** Own properties *)

Lemma lookup_replace_prop_same {A : Type} (k : string) (v : A) (o : list (string * A)) :
  has_key k o = true -> lookup k (replace_prop k v o) = Some v.
Proof.
  unfold has_key. induction o as [|[k' v'] r IH]; simpl.
  - discriminate.
  - destruct (k' =? k) eqn:E; simpl; rewrite E; auto.
Qed.

Lemma lookup_replace_prop_other {A : Type} (k k' : string) (v : A) (o : list (string * A)) :
  k' <> k -> lookup k' (replace_prop k v o) = lookup k' o.
Proof.
  intros N. induction o as [|[k0 v0] r IH]; simpl; auto.
  destruct (k0 =? k) eqn:E; simpl.
  - apply String.eqb_eq in E. subst k0.
    destruct (k =? k') eqn:E'; auto.
    apply String.eqb_eq in E'. congruence.
  - destruct (k0 =? k'); auto.
Qed.

Lemma lookup_insert_index_same {A : Type} (n : N) (k : string) (v : A)
    (o : list (string * A)) :
  lookup k o = None -> lookup k (insert_index n k v o) = Some v.
Proof.
  induction o as [|[k' v'] r IH]; simpl; intros H.
  - rewrite String.eqb_refl. reflexivity.
  - destruct (k' =? k) eqn:E; [discriminate|].
    destruct (array_index k') as [n'|]; simpl.
    + destruct (n' <? n)%N; simpl.
      * rewrite E. auto.
      * rewrite String.eqb_refl. reflexivity.
    + rewrite String.eqb_refl. reflexivity.
Qed.

Lemma lookup_insert_index_other {A : Type} (n : N) (k k' : string) (v : A)
    (o : list (string * A)) :
  k' <> k -> lookup k' (insert_index n k v o) = lookup k' o.
Proof.
  intros N. apply String.eqb_neq in N. rewrite String.eqb_sym in N.
  induction o as [|[k0 v0] r IH]; simpl.
  - rewrite N. reflexivity.
  - destruct (array_index k0) as [n'|]; simpl.
    + destruct (n' <? n)%N; simpl.
      * rewrite IH. reflexivity.
      * rewrite N. reflexivity.
    + rewrite N. reflexivity.
Qed.

Lemma lookup_app {A : Type} (k : string) (o1 o2 : list (string * A)) :
  lookup k (o1 ++ o2) = match lookup k o1 with
                        | Some v => Some v
                        | None => lookup k o2
                        end.
Proof.
  induction o1 as [|[k' v'] r IH]; simpl; auto.
  destruct (k' =? k); auto.
Qed.

Lemma lookup_set_prop_same {A : Type} (o : list (string * A)) (k : string) (v : A) :
  lookup k (set_prop o k v) = Some v.
Proof.
  unfold set_prop. destruct (has_key k o) eqn:H.
  - apply lookup_replace_prop_same; assumption.
  - unfold has_key in H. destruct (lookup k o) eqn:L; [discriminate|].
    destruct (array_index k).
    + apply lookup_insert_index_same; assumption.
    + rewrite lookup_app, L. simpl. rewrite String.eqb_refl. reflexivity.
Qed.

Lemma lookup_set_prop_other {A : Type} (o : list (string * A)) (k k' : string) (v : A) :
  k' <> k -> lookup k' (set_prop o k v) = lookup k' o.
Proof.
  intros N. unfold set_prop. destruct (has_key k o).
  - apply lookup_replace_prop_other; assumption.
  - destruct (array_index k).
    + apply lookup_insert_index_other; assumption.
    + rewrite lookup_app. destruct (lookup k' o); auto.
      simpl. apply String.eqb_neq in N. rewrite String.eqb_sym in N.
      rewrite N. reflexivity.
Qed.

Lemma lookup_assign_same (o : object) (k : string) (v : json) :
  k <> "__proto__" -> lookup k (assign o k v) = Some v.
Proof.
  intros N. unfold assign. apply String.eqb_neq in N. rewrite N.
  apply lookup_set_prop_same.
Qed.

Lemma lookup_assign_other (o : object) (k k' : string) (v : json) :
  k' <> k -> lookup k' (assign o k v) = lookup k' o.
Proof.
  intros N. unfold assign. destruct (k =? "__proto__"); auto.
  apply lookup_set_prop_other; assumption.
Qed.

Lemma lookup_In_keys {A : Type} (k : string) (o : list (string * A)) :
  In k (keys o) <-> lookup k o <> None.
Proof.
  induction o as [|[k' v'] r IH]; simpl.
  - split; [tauto | congruence].
  - destruct (k' =? k) eqn:E.
    + apply String.eqb_eq in E. split; [congruence | auto].
    + apply String.eqb_neq in E. rewrite <- IH. split; [intros [H|H]; [congruence | auto] | auto].
Qed.


Lemma keys_replace_prop {A : Type} (k : string) (v : A) (o : list (string * A)) :
  keys (replace_prop k v o) = keys o.
Proof.
  induction o as [|[k' v'] r IH]; simpl; auto.
  destruct (k' =? k); simpl; [reflexivity | f_equal; exact IH].
Qed.



(** ** The two paths through the handler *)

Lemma resolve_basePath_present (d : ApiSpecification) :
  resolve_basePath (Some d) = Normal (resolved d).
Proof.
  unfold resolved, resolve_basePath. simpl.
  destruct (servers d) as [[|s l]|]; simpl; try reflexivity.
  destruct (url s) as [u|]; simpl; try reflexivity.
  destruct (u =? ""); reflexivity.
Qed.

Lemma nested_for_in (base : string) (ps : list (string * PathItem)) (links : object) :
  for_in ps (fun linksObject pathKey item =>
               for_in item (link_operation base pathKey) linksObject) links
  = links_after base (flat_map (fun p => map (fun m => (fst p, m)) (snd p)) ps) links.
Proof.
  unfold links_after, for_in. revert links.
  induction ps as [|[pathKey item] ps IH]; intros links; simpl; auto.
  rewrite fold_left_app, <- IH. f_equal.
  clear IH. revert links. induction item as [|[methodKey operation] item IH]; intros links; simpl; auto.
Qed.

Lemma entrypoint_present (d : ApiSpecification) (env : Env) (w : World) :
  entrypoint (Normal (Some d)) env w
  = (Normal tt, sent (JObj [ ("_links", JObj (links_document d env)) ]) w).
Proof.
  unfold entrypoint, try_catch, bind, lift.
  rewrite resolve_basePath_present. cbv beta iota.
  unfold links_document, self_entry, operations. simpl chain.
  destruct (paths d) as [ps|]; [rewrite nested_for_in|]; reflexivity.
Qed.

Lemma entrypoint_absent (env : Env) (w : World) :
  entrypoint (Normal None) env w = (Normal tt, failed (TypeError "basePath") w).
Proof. reflexivity. Qed.


Lemma links_of_sent (links : object) (w : World) :
  links_of (sent (JObj [ ("_links", JObj links) ]) w) = Some links.
Proof. reflexivity. Qed.

(** ** The loop over [info] *)

Lemma merge_info_keeps_truthy (self : object) (k infoKey : string) (v value : json) :
  lookup k self = Some v -> truthy v = true ->
  lookup k (merge_info self infoKey value) = Some v.
Proof.
  intros L T. unfold merge_info, falsy_at.
  destruct (string_dec k infoKey) as [<-|N].
  - rewrite L, T. simpl. exact L.
  - destruct (lookup infoKey self) as [v0|].
    + destruct (negb (truthy v0)); [rewrite lookup_assign_other by assumption|]; exact L.
    + destruct (negb (inherited infoKey)); [rewrite lookup_assign_other by assumption|]; exact L.
Qed.

Lemma merge_info_keeps_key (self : object) (k infoKey : string) (value : json) :
  has_key k self = true -> has_key k (merge_info self infoKey value) = true.
Proof.
  unfold has_key, merge_info. intros H.
  destruct (falsy_at self infoKey); [|exact H].
  destruct (string_dec k infoKey) as [<-|N].
  - unfold assign. destruct (k =? "__proto__"); [exact H|].
    rewrite lookup_set_prop_same. reflexivity.
  - rewrite lookup_assign_other by assumption. exact H.
Qed.

Lemma for_in_merge_keeps_truthy (i self : object) (k : string) (v : json) :
  lookup k self = Some v -> truthy v = true ->
  lookup k (for_in i merge_info self) = Some v.
Proof.
  unfold for_in. revert self.
  induction i as [|[infoKey value] i IH]; intros self L T; simpl; auto.
  apply IH; [apply merge_info_keeps_truthy|]; assumption.
Qed.

Lemma for_in_merge_keeps_key (i self : object) (k : string) :
  has_key k self = true -> has_key k (for_in i merge_info self) = true.
Proof.
  unfold for_in. revert self.
  induction i as [|[infoKey value] i IH]; intros self H; simpl; auto.
  apply IH, merge_info_keeps_key, H.
Qed.

(** ** The loops over the operations *)

Lemma link_step_unnamed (base k : string) (links : object)
    (x : string * (string * Operation)) :
  ~ named k (snd (snd x)) ->
  lookup k (link_step base links x) = lookup k links.
Proof.
  intros U. destruct x as [pathKey [methodKey operation]].
  unfold link_step, link_operation. simpl in *.
  destruct (operationId operation) as [id|] eqn:E; [|reflexivity].
  destruct (id =? "") eqn:E0; [reflexivity|].
  apply lookup_assign_other. intros ->. apply U. split; [exact E|].
  apply String.eqb_neq. exact E0.
Qed.





Lemma links_after_unnamed (base k : string)
    (ops : list (string * (string * Operation))) (links : object) :
  (forall x, In x ops -> ~ named k (snd (snd x))) ->
  lookup k (links_after base ops links) = lookup k links.
Proof.
  unfold links_after. revert links.
  induction ops as [|x ops IH]; intros links H; simpl; auto.
  rewrite IH by (intros y Hy; apply H; right; exact Hy).
  apply link_step_unnamed, H. left. reflexivity.
Qed.





(** ** Separators *)

Lemma string_pair_ind (P : string -> Prop) :
  P EmptyString ->
  (forall c, P (String c EmptyString)) ->
  (forall c c' r, P r -> P (String c' r) -> P (String c (String c' r))) ->
  forall s, P s.
Proof.
  intros H0 H1 H2 s.
  assert (B : P s /\ forall c, P (String c s)).
  { induction s as [|c' r [IH1 IH2]].
    - split; [exact H0 | exact H1].
    - split; [apply IH2 | intros c; apply H2; [exact IH1 | apply IH2]]. }
  exact (proj1 B).
Qed.

Lemma cleanPath_starts (s : string) :
  starts_with_slash (cleanPath s) = starts_with_slash s.
Proof.
  destruct s as [|c [|c' r]]; simpl; try reflexivity.
  destruct (Ascii.eqb c slash) eqn:E; simpl; [|exact E].
  destruct (Ascii.eqb c' slash); simpl; [reflexivity | exact E].
Qed.

Lemma doubled_slash_cons (c : ascii) (s : string) :
  doubled_slash (String c s) = (Ascii.eqb c slash && starts_with_slash s) || doubled_slash s.
Proof.
  destruct s as [|c' r]; simpl.
  - rewrite andb_false_r. reflexivity.
  - reflexivity.
Qed.

Lemma tripled_slash_cons (c : ascii) (s : string) :
  tripled_slash (String c s)
  = (Ascii.eqb c slash && starts_with_two_slashes s) || tripled_slash s.
Proof.
  destruct s as [|c' [|c'' r]]; simpl.
  - rewrite andb_false_r. reflexivity.
  - rewrite !andb_false_r. reflexivity.
  - rewrite andb_assoc. reflexivity.
Qed.

Lemma cleanPath_cons2 (c c' : ascii) (r : string) :
  cleanPath (String c (String c' r))
  = if Ascii.eqb c slash && Ascii.eqb c' slash
    then String slash (cleanPath r)
    else String c (cleanPath (String c' r)).
Proof. reflexivity. Qed.

(** The collapse leaves a doubled separator exactly where three separators
    were adjacent. *)
Lemma doubled_slash_cleanPath (s : string) :
  doubled_slash (cleanPath s) = tripled_slash s.
Proof.
  induction s as [|c|c c' r IH1 IH2] using string_pair_ind; try reflexivity.
  rewrite cleanPath_cons2, (tripled_slash_cons c), (tripled_slash_cons c').
  unfold starts_with_two_slashes at 1. cbn [starts_with_slash].
  destruct (Ascii.eqb c slash) eqn:E; destruct (Ascii.eqb c' slash) eqn:E'; cbn [andb orb].
  - rewrite doubled_slash_cons, cleanPath_starts, IH1, Ascii.eqb_refl. cbn [andb].
    destruct r as [|c'' r']; [reflexivity|].
    unfold starts_with_two_slashes. cbn [starts_with_slash].
    destruct (Ascii.eqb c'' slash); reflexivity.
  - rewrite doubled_slash_cons, cleanPath_starts, IH2, E. cbn [starts_with_slash].
    rewrite E', (tripled_slash_cons c'), E'. reflexivity.
  - rewrite doubled_slash_cons, IH2, E, (tripled_slash_cons c'), E'. reflexivity.
  - rewrite doubled_slash_cons, IH2, E, (tripled_slash_cons c'), E'. reflexivity.
Qed.

Lemma starts_with_slash_app (a b : string) :
  starts_with_slash (a ++ b)
  = match a with
    | EmptyString => starts_with_slash b
    | String _ _ => starts_with_slash a
    end.
Proof. destruct a; reflexivity. Qed.

(** Three adjacent separators after a suffix ["/..."] is appended. *)
Lemma tripled_slash_suffix (base t : string) :
  starts_with_slash t = false -> tripled_slash t = false ->
  tripled_slash (base ++ String slash t)
  = tripled_slash base || ends_with_two_slashes base.
Proof.
  intros St Tt.
  assert (F1 : starts_with_two_slashes t = false).
  { destruct t as [|a t']; [reflexivity|]. unfold starts_with_two_slashes.
    cbn [starts_with_slash] in St. rewrite St. reflexivity. }
  assert (F3 : starts_with_two_slashes (String slash t) = false).
  { unfold starts_with_two_slashes. rewrite St. apply andb_false_r. }
  assert (F2 : tripled_slash (String slash t) = false).
  { rewrite tripled_slash_cons, F1, Tt, andb_false_r. reflexivity. }
  induction base as [|c|c c' r IH1 IH2] using string_pair_ind.
  - cbn [append]. rewrite F2. reflexivity.
  - cbn [append]. rewrite tripled_slash_cons, F3, F2, andb_false_r. reflexivity.
  - change ((String c (String c' r) ++ String slash t)%string)
      with (String c (String c' r ++ String slash t)%string).
    rewrite tripled_slash_cons, IH2, (tripled_slash_cons c (String c' r)).
    unfold starts_with_two_slashes.
    change ((String c' r ++ String slash t)%string)
      with (String c' (r ++ String slash t)%string).
    cbv beta iota. rewrite starts_with_slash_app.
    destruct r as [|c'' r'].
    + cbn.
      destruct (Ascii.eqb c slash), (Ascii.eqb c' slash); reflexivity.
    + change (ends_with_two_slashes (String c (String c' (String c'' r'))))
        with (ends_with_two_slashes (String c' (String c'' r'))).
      rewrite orb_assoc. reflexivity.
Qed.

Lemma ends_with_slash_replace (s : string) :
  ends_with_slash (replace_final_slash s) = ends_with_two_slashes s.
Proof.
  induction s as [|c|c c' r IH1 IH2] using string_pair_ind.
  - reflexivity.
  - cbn. destruct (Ascii.eqb c slash) eqn:E; [reflexivity|]. cbn. exact E.
  - change (replace_final_slash (String c (String c' r)))
      with (String c (replace_final_slash (String c' r))).
    destruct r as [|c'' r'].
    + cbn. destruct (Ascii.eqb c' slash) eqn:E'; cbn.
      * rewrite andb_true_r. reflexivity.
      * rewrite E', andb_false_r. reflexivity.
    + change (ends_with_two_slashes (String c (String c' (String c'' r'))))
        with (ends_with_two_slashes (String c' (String c'' r'))).
      rewrite <- IH2.
      change (replace_final_slash (String c' (String c'' r')))
        with (String c' (replace_final_slash (String c'' r'))).
      reflexivity.
Qed.

Lemma replace_final_slash_empty (s : string) :
  replace_final_slash s = "" -> s = "" \/ s = "/".
Proof.
  destruct s as [|c [|c' r]]; cbn; auto.
  - destruct (Ascii.eqb c slash) eqn:E; [|discriminate].
    apply Ascii.eqb_eq in E. subst c. auto.
  - discriminate.
Qed.

Lemma ends_with_slash_strip (base : string) :
  base <> "/" ->
  ends_with_slash (stripTrailingSlash base) = ends_with_two_slashes base.
Proof.
  intros N. unfold stripTrailingSlash.
  destruct (replace_final_slash base =? "") eqn:E.
  - apply String.eqb_eq in E. apply replace_final_slash_empty in E.
    destruct E as [->| ->]; [reflexivity | congruence].
  - apply ends_with_slash_replace.
Qed.

(** ** Scheme separators *)

Lemma cleanPath_no_slash (a b : string) :
  no_slash a = true -> cleanPath (a ++ b) = (a ++ cleanPath b)%string.
Proof.
  induction a as [|c a IH]; intros H; [reflexivity|].
  cbn [no_slash] in H. apply andb_true_iff in H. destruct H as [Hc Ha].
  apply negb_true_iff in Hc.
  cbn [append]. destruct (a ++ b)%string as [|c' r] eqn:E.
  - destruct a; [|discriminate]. cbn in E. subst b. reflexivity.
  - rewrite cleanPath_cons2, Hc. cbn [andb]. rewrite IH by exact Ha. reflexivity.
Qed.

Lemma cleanPath_scheme (scheme rest : string) :
  no_slash scheme = true ->
  cleanPath (scheme ++ "://" ++ rest) = (scheme ++ ":/" ++ cleanPath rest)%string.
Proof.
  intros H. rewrite cleanPath_no_slash by exact H. reflexivity.
Qed.

Lemma replace_final_slash_app (a b : string) :
  b <> "" -> replace_final_slash (a ++ b) = (a ++ replace_final_slash b)%string.
Proof.
  intros N. induction a as [|c a IH]; [reflexivity|].
  cbn [append]. destruct (a ++ b)%string as [|c' r] eqn:E.
  - destruct a; [|discriminate]. cbn in E. congruence.
  - change (replace_final_slash (String c (String c' r)))
      with (String c (replace_final_slash (String c' r))).
    rewrite <- IH. reflexivity.
Qed.

Lemma stripTrailingSlash_app (a b : string) :
  a <> "" -> b <> "" ->
  stripTrailingSlash (a ++ b) = (a ++ replace_final_slash b)%string.
Proof.
  intros Na Nb. unfold stripTrailingSlash.
  rewrite replace_final_slash_app by exact Nb.
  destruct a as [|c a]; [congruence|]. reflexivity.
Qed.

Lemma append_assoc (a b c : string) :
  ((a ++ b) ++ c = a ++ (b ++ c))%string.
Proof. induction a as [|x a IH]; cbn; [reflexivity | rewrite IH; reflexivity]. Qed.

Lemma prefix_append (a b : string) : String.prefix a (a ++ b) = true.
Proof.
  induction a as [|c a IH]; cbn.
  - destruct b; reflexivity.
  - destruct (ascii_dec c c); [exact IH | congruence].
Qed.

(** ** Letter case *)


Lemma upper_ascii_idempotent (c : ascii) : upper_ascii (upper_ascii c) = upper_ascii c.
Proof.
  destruct c as [[] [] [] [] [] [] [] []]; reflexivity.
Qed.


Lemma toUpperCase_idempotent (s : string) : toUpperCase (toUpperCase s) = toUpperCase s.
Proof.
  induction s as [|c r IH]; [reflexivity|].
  cbn [toUpperCase]. rewrite upper_ascii_idempotent, IH. reflexivity.
Qed.

(** * Part I: the claims *)

(** C1 (defect of the code).  When the loader returns no specification
    ([undefined] or [null]) the handler does not answer with the default
    self link: [swaggerDoc.basePath] is read without the optional chaining
    that every other access uses, a TypeError is raised, and the error branch
    answers 500 after one error report.  For the empty object the handler
    does answer 200 with the self link of default literals and nothing
    else. *)
Theorem absent_specification_takes_error_branch :
  forall (env : Env) (w : World),
    entrypoint (Normal None) env w = (Normal tt, failed (TypeError "basePath") w)
    /\ statusCode (res (snd (entrypoint (Normal None) env w))) = 500
    /\ links_of (snd (entrypoint (Normal None) env w)) = None
    /\ links_of (snd (entrypoint (Normal (Some empty_document)) no_env w))
       = Some [ ("self", JObj default_self) ]
    /\ statusCode (res (snd (entrypoint (Normal (Some empty_document)) no_env w))) = 200.
Proof.
  intros env w. rewrite entrypoint_absent, entrypoint_present.
  repeat split.
Qed.

(** C2 (counterexample).  An operation whose operationId is ["self"] is
    stored under the key of the self link and replaces it: the answer is
    200 and its [_links.self] has neither [status] nor [id]. *)
Lemma operation_named_self_replaces_self_link :
  statusCode (res (snd (entrypoint (Normal (Some (document_with_operation "self")))
                          no_env fresh_world))) = 200
  /\ link_of "self" (snd (entrypoint (Normal (Some (document_with_operation "self")))
                            no_env fresh_world))
     = Some [ ("href", JStr "/tmf-api/geographicAddressManagement/v4/x");
              ("method", JStr "GET");
              ("description", JStr "");
              ("operationId", JStr "self") ]
  /\ link_of "self" (snd (entrypoint (Normal (Some (document_with_operation "self")))
                            no_env fresh_world)) ?. lookup "status" = None.
Proof. repeat split. Qed.

Lemma self_entry_explicit_fields (d : ApiSpecification) (env : Env) :
  (forall f, In f explicit_fields -> has_key f (self_entry d env) = true)
  /\ lookup "status" (self_entry d env) = Some (JStr "running").
Proof.
  unfold self_entry. split.
  - intros f Hf. destruct (info d) as [i|].
    + apply for_in_merge_keeps_key.
      simpl in Hf. repeat (destruct Hf as [<-|Hf]; [reflexivity|]). contradiction.
    + simpl in Hf. repeat (destruct Hf as [<-|Hf]; [reflexivity|]). contradiction.
  - destruct (info d) as [i|]; [|reflexivity].
    apply for_in_merge_keeps_truthy; reflexivity.
Qed.

(** C2 (amended).  For every specification none of whose operations has the
    operationId ["self"], the answer is 200 and its [_links.self] has the
    nine explicit fields, [status] with the value ["running"]. *)
Theorem self_link_has_explicit_fields :
  forall (d : ApiSpecification) (env : Env) (w : World),
    (forall x, In x (operations d) -> ~ named "self" (snd (snd x))) ->
    exists self,
      link_of "self" (snd (entrypoint (Normal (Some d)) env w)) = Some self
      /\ statusCode (res (snd (entrypoint (Normal (Some d)) env w))) = 200
      /\ (forall f, In f explicit_fields -> has_key f self = true)
      /\ lookup "status" self = Some (JStr "running").
Proof.
  intros d env w H. exists (self_entry d env).
  rewrite entrypoint_present. unfold link_of. cbn [snd]. rewrite links_of_sent.
  unfold links_document. cbn [chain].
  rewrite links_after_unnamed by exact H.
  destruct (self_entry_explicit_fields d env) as [K S].
  repeat split; assumption.
Qed.

(** The amended claim on the document of the [listFoo] scenario. *)
Lemma self_link_has_explicit_fields_witness :
  exists self,
    link_of "self" (snd (entrypoint (Normal (Some listFoo_document)) no_env fresh_world))
    = Some self
    /\ statusCode (res (snd (entrypoint (Normal (Some listFoo_document)) no_env fresh_world)))
       = 200
    /\ (forall f, In f explicit_fields -> has_key f self = true)
    /\ lookup "status" self = Some (JStr "running").
Proof.
  apply (self_link_has_explicit_fields listFoo_document no_env fresh_world).
  intros x Hx [E _]. simpl in Hx. destruct Hx as [<-|[]]. discriminate E.
Defined.

(** C3 (defect of the code).  The loop over [info] tests the truthiness of
    [linksObject.self[infoKey]] where it means its presence.  The explicit
    field [description] is the empty string when [info.description] is
    falsy, so the loop assigns [info.description] to it: with
    [{info: {description: null}}] the field built as [""] is sent as
    [null]. *)
Theorem info_description_replaces_empty_default :
  forall (env : Env) (w : World),
    lookup "description"
      (self_literal (Some null_description_document) (resolved null_description_document)
         (str_or (RELEASE_NAME env) "tmf673")
         (str_or (COMPONENT_NAME env) "geographicaddress"))
    = Some (JStr "")
    /\ link_of "self" (snd (entrypoint (Normal (Some null_description_document)) env w))
         ?. lookup "description"
       = Some JNull.
Proof.
  intros env w. rewrite entrypoint_present. split; reflexivity.
Qed.

(** What the loop does keep: an explicit field whose value is truthy. *)
Lemma truthy_explicit_field_is_kept (d : ApiSpecification) (env : Env) (k : string) (v : json) :
  lookup k (self_literal (Some d) (resolved d) (str_or (RELEASE_NAME env) "tmf673")
              (str_or (COMPONENT_NAME env) "geographicaddress")) = Some v ->
  truthy v = true ->
  lookup k (self_entry d env) = Some v.
Proof.
  intros L T. unfold self_entry. destruct (info d) as [i|]; [|exact L].
  apply for_in_merge_keeps_truthy; assumption.
Qed.

(** C4 (counterexample).  A [basePath] that is present but empty is falsy:
    with [{basePath: ""}] the resolved base path is the default constant,
    not [basePath]. *)
Lemma empty_basePath_falls_through :
  servers empty_basePath_document = None
  /\ basePath empty_basePath_document = Some ""
  /\ resolve_basePath (Some empty_basePath_document) = Normal default_basePath
  /\ resolve_basePath (Some empty_basePath_document) <> Normal "".
Proof.
  repeat split. discriminate.
Qed.

Lemma str_or_stated (s : option string) (b : string) :
  str_or s b = match present_nonempty s with Some x => x | None => b end.
Proof. destruct s as [[|c r]|]; reflexivity. Qed.

(** C4 (amended).  Base-path resolution is an ordered three-way fallback on
    values that are present and not empty: the url of the first server,
    otherwise [basePath], otherwise the default constant; the result is the
    [href] of the self link that is built. *)
Theorem basePath_three_way_fallback :
  forall (d : ApiSpecification) (releaseName componentName : string),
    resolve_basePath (Some d) = Normal (stated_fallback d)
    /\ lookup "href" (self_literal (Some d) (resolved d) releaseName componentName)
       = Some (JStr (stated_fallback d)).
Proof.
  intros d releaseName componentName.
  assert (R : resolve_basePath (Some d) = Normal (stated_fallback d)).
  { unfold resolve_basePath, stated_fallback, legacy_or_default, read_basePath.
    cbn [chain]. rewrite str_or_stated.
    destruct (servers d) as [[|first rest]|]; cbn [chain hd_error]; try reflexivity.
    destruct (url first) as [[|c u]|]; reflexivity. }
  split; [exact R|].
  unfold resolved. rewrite R. reflexivity.
Qed.

(** C5 (counterexample).  With the base path ["/api//"] the tooling link
    [swagger-ui] is ["/api//api-docs"] and the href of the operation is
    ["/api//foo"]: one collapse of ["///"] leaves ["//"], and one trailing
    separator is stripped out of two. *)
Lemma two_trailing_separators_stay_doubled :
  link_of "self" (snd (entrypoint (Normal (Some (served_document "/api//")))
                         no_env fresh_world)) ?. lookup "swagger-ui"
  = Some (JStr "/api//api-docs")
  /\ doubled_slash "/api//api-docs" = true
  /\ link_of "listFoo" (snd (entrypoint (Normal (Some (served_document "/api//")))
                              no_env fresh_world)) ?. lookup "href"
     = Some (JStr "/api//foo")
  /\ doubled_at_join (stripTrailingSlash "/api//") "/foo" = true.
Proof. repeat split. Qed.

Lemma lookup_link_literal_href (base pathKey methodKey id : string) (operation : Operation) :
  lookup "href" (link_literal base pathKey methodKey id operation)
  = Some (JStr (stripTrailingSlash base ++ pathKey)).
Proof.
  unfold link_literal. destruct (tags operation) as [[|t ts]|]; reflexivity.
Qed.

(** The tooling links have a doubled separator exactly when the base path
    has three adjacent separators or ends in two. *)
Lemma tooling_link_doubled (base : string) :
  doubled_slash (cleanPath (base ++ "/api-docs"))
  = tripled_slash base || ends_with_two_slashes base
  /\ doubled_slash (cleanPath (base ++ "/openapi"))
     = tripled_slash base || ends_with_two_slashes base.
Proof.
  rewrite !doubled_slash_cleanPath. split; apply tripled_slash_suffix; reflexivity.
Qed.

(** C5 (amended).  For every base path string in which no three separators
    are adjacent and which does not end in two separators (one trailing
    separator is allowed), the two tooling links contain no doubled
    separator; and when the base path is not ["/"] alone, the href of an
    operation link has no doubled separator where the stripped base path and
    the path suffix are joined. *)
Theorem no_doubled_separator :
  forall (base releaseName componentName pathKey methodKey id : string)
         (swaggerDoc : option ApiSpecification) (operation : Operation),
    tripled_slash base = false ->
    ends_with_two_slashes base = false ->
    (exists ui, lookup "swagger-ui" (self_literal swaggerDoc base releaseName componentName)
                = Some (JStr ui) /\ doubled_slash ui = false)
    /\ (exists oa, lookup "openapi" (self_literal swaggerDoc base releaseName componentName)
                   = Some (JStr oa) /\ doubled_slash oa = false)
    /\ (base <> "/" ->
        lookup "href" (link_literal base pathKey methodKey id operation)
        = Some (JStr (stripTrailingSlash base ++ pathKey))
        /\ doubled_at_join (stripTrailingSlash base) pathKey = false).
Proof.
  intros base releaseName componentName pathKey methodKey id swaggerDoc operation T E.
  destruct (tooling_link_doubled base) as [U O]. rewrite T, E in U, O.
  split; [|split].
  - exists (cleanPath (base ++ "/api-docs")). split; [reflexivity | exact U].
  - exists (cleanPath (base ++ "/openapi")). split; [reflexivity | exact O].
  - intros N. split; [apply lookup_link_literal_href|].
    unfold doubled_at_join. rewrite ends_with_slash_strip by exact N.
    rewrite E. reflexivity.
Qed.

(** The amended claim on the base path ["/api/"]. *)
Lemma no_doubled_separator_witness :
  (exists ui, lookup "swagger-ui" (self_literal (Some listFoo_document) "/api/" "tmf673"
                                     "geographicaddress")
              = Some (JStr ui) /\ doubled_slash ui = false)
  /\ (exists oa, lookup "openapi" (self_literal (Some listFoo_document) "/api/" "tmf673"
                                     "geographicaddress")
                 = Some (JStr oa) /\ doubled_slash oa = false)
  /\ lookup "href" (link_literal "/api/" "/foo" "get" "listFoo"
                      {| operationId := Some "listFoo"; description := None;
                         summary := None; tags := Some ["a"] |})
     = Some (JStr "/api/foo")
  /\ doubled_at_join (stripTrailingSlash "/api/") "/foo" = false.
Proof.
  destruct (no_doubled_separator "/api/" "tmf673" "geographicaddress" "/foo" "get" "listFoo"
              (Some listFoo_document)
              {| operationId := Some "listFoo"; description := None;
                 summary := None; tags := Some ["a"] |})
    as (U & O & J); [reflexivity | reflexivity |].
  split; [exact U | split; [exact O | apply J; discriminate]].
Defined.











Lemma prefix_append_cancel (a b c : string) :
  String.prefix (a ++ b) (a ++ c) = String.prefix b c.
Proof.
  induction a as [|x a IH]; cbn; [reflexivity|].
  destruct (ascii_dec x x); [exact IH | congruence].
Qed.

Lemma prefix_slash (s : string) : String.prefix "/" s = starts_with_slash s.
Proof.
  destruct s as [|c r]; [reflexivity|].
  change (String.prefix "/" (String c r))
    with (if ascii_dec "/" c then String.prefix "" r else false).
  unfold starts_with_slash.
  destruct (ascii_dec "/" c) as [<-|N].
  - destruct r; reflexivity.
  - symmetry. apply Ascii.eqb_neq. intros ->. apply N. reflexivity.
Qed.

(** C10.  When the base path is [scheme ++ "://" ++ host] (no separator in
    the scheme, a host that is not empty and does not start with a
    separator), the collapse applied to the two tooling links also collapses
    the separator of the scheme: they read [scheme ++ ":/" ++ ...] and no
    longer start with [scheme ++ "://"]; the [href] of the self link is the
    base path as it is, and the href of an operation keeps the prefix
    [scheme ++ "://"], followed by the host without its final separator and
    by the path. *)
Theorem scheme_separator_is_collapsed :
  forall (scheme host releaseName componentName pathKey methodKey id : string)
         (swaggerDoc : option ApiSpecification) (operation : Operation),
    no_slash scheme = true ->
    host <> "" ->
    starts_with_slash host = false ->
    lookup "swagger-ui" (self_literal swaggerDoc (scheme ++ "://" ++ host)
                           releaseName componentName)
    = Some (JStr (scheme ++ ":/" ++ cleanPath (host ++ "/api-docs")))
    /\ lookup "openapi" (self_literal swaggerDoc (scheme ++ "://" ++ host)
                           releaseName componentName)
       = Some (JStr (scheme ++ ":/" ++ cleanPath (host ++ "/openapi")))
    /\ String.prefix (scheme ++ "://")
         (scheme ++ ":/" ++ cleanPath (host ++ "/api-docs")) = false
    /\ String.prefix (scheme ++ "://")
         (scheme ++ ":/" ++ cleanPath (host ++ "/openapi")) = false
    /\ lookup "href" (self_literal swaggerDoc (scheme ++ "://" ++ host)
                        releaseName componentName)
       = Some (JStr (scheme ++ "://" ++ host))
    /\ lookup "href" (link_literal (scheme ++ "://" ++ host) pathKey methodKey id operation)
       = Some (JStr (scheme ++ "://" ++ replace_final_slash host ++ pathKey))
    /\ String.prefix (scheme ++ "://")
         (scheme ++ "://" ++ replace_final_slash host ++ pathKey) = true.
Proof.
  intros scheme host releaseName componentName pathKey methodKey id swaggerDoc operation
         Hs Hh Hf.
  assert (C : forall t, cleanPath ((scheme ++ "://" ++ host) ++ t)
                        = (scheme ++ ":/" ++ cleanPath (host ++ t))%string).
  { intros t. rewrite !append_assoc. apply (cleanPath_scheme scheme (host ++ t) Hs). }
  assert (P : forall t, String.prefix (scheme ++ "://")
                          (scheme ++ ":/" ++ cleanPath (host ++ t)) = false).
  { intros t. rewrite prefix_append_cancel.
    change (String.prefix (":/" ++ "/") (":/" ++ cleanPath (host ++ t)) = false).
    rewrite prefix_append_cancel, prefix_slash, cleanPath_starts, starts_with_slash_app.
    destruct host; [congruence | exact Hf]. }
  split; [cbn [self_literal lookup String.eqb Ascii.eqb Bool.eqb]; rewrite C; reflexivity|].
  split; [cbn [self_literal lookup String.eqb Ascii.eqb Bool.eqb]; rewrite C; reflexivity|].
  split; [apply P|]. split; [apply P|]. split; [reflexivity|].
  split.
  - rewrite lookup_link_literal_href.
    replace (scheme ++ "://" ++ host)%string with ((scheme ++ "://") ++ host)%string
      by apply append_assoc.
    rewrite stripTrailingSlash_app; [|destruct scheme; discriminate | exact Hh].
    rewrite !append_assoc. reflexivity.
  - rewrite <- (append_assoc scheme "://"). apply prefix_append.
Qed.

(** The claim on the base path ["http://host"]. *)
Lemma scheme_separator_is_collapsed_witness :
  lookup "swagger-ui" (self_literal (Some (served_document "http://host")) "http://host"
                         "tmf673" "geographicaddress")
  = Some (JStr "http:/host/api-docs")
  /\ lookup "openapi" (self_literal (Some (served_document "http://host")) "http://host"
                         "tmf673" "geographicaddress")
     = Some (JStr "http:/host/openapi")
  /\ String.prefix "http://" "http:/host/api-docs" = false
  /\ String.prefix "http://" "http:/host/openapi" = false
  /\ lookup "href" (self_literal (Some (served_document "http://host")) "http://host"
                      "tmf673" "geographicaddress")
     = Some (JStr "http://host")
  /\ lookup "href" (link_literal "http://host" "/foo" "get" "listFoo"
                      {| operationId := Some "listFoo"; description := None;
                         summary := None; tags := None |})
     = Some (JStr "http://host/foo")
  /\ String.prefix "http://" "http://host/foo" = true.
Proof.
  apply (scheme_separator_is_collapsed "http" "host" "tmf673" "geographicaddress"
           "/foo" "get" "listFoo" (Some (served_document "http://host"))
           {| operationId := Some "listFoo"; description := None;
              summary := None; tags := None |}).
  - reflexivity.
  - discriminate.
  - reflexivity.
Defined.

(** * Part I: further properties *)

(** ** The collapse of doubled separators *)

Lemma cleanPath_length (s : string) : String.length (cleanPath s) <= String.length s.
Proof.
  induction s as [|c|c c' r IH1 IH2] using string_pair_ind; [apply le_n | apply le_n |].
  rewrite cleanPath_cons2.
  destruct (Ascii.eqb c slash && Ascii.eqb c' slash); cbn [String.length] in *; lia.
Qed.

Lemma cleanPath_identity (s : string) : cleanPath s = s <-> doubled_slash s = false.
Proof.
  induction s as [|c|c c' r IH1 IH2] using string_pair_ind.
  - split; reflexivity.
  - split; reflexivity.
  - rewrite cleanPath_cons2, doubled_slash_cons. cbn [starts_with_slash].
    destruct (Ascii.eqb c slash && Ascii.eqb c' slash) eqn:E; cbn [orb].
    + split; [|discriminate]. intros H.
      pose proof (cleanPath_length r) as L.
      apply (f_equal String.length) in H. cbn [String.length] in H. lia.
    + rewrite <- IH2. split; [intros [= H]; exact H | intros ->; reflexivity].
Qed.

(** [cleanPath] leaves a path as it is exactly when the path has no doubled
    separator, and a second pass changes nothing exactly when the path has
    no three adjacent separators: one pass is not enough in general. *)
Theorem cleanPath_fixed_points :
  forall s : string,
    (cleanPath s = s <-> doubled_slash s = false)
    /\ (cleanPath (cleanPath s) = cleanPath s <-> tripled_slash s = false).
Proof.
  intros s. split; [apply cleanPath_identity|].
  rewrite cleanPath_identity, doubled_slash_cleanPath. reflexivity.
Qed.

(** [cleanPath] removes separators and nothing else: the text between the
    separators is kept, in order, and the result is never longer than the
    path. *)
Theorem cleanPath_removes_separators_only :
  forall s : string,
    without_slashes (cleanPath s) = without_slashes s
    /\ String.length (cleanPath s) <= String.length s.
Proof.
  intros s. split; [|apply cleanPath_length].
  induction s as [|c|c c' r IH1 IH2] using string_pair_ind; try reflexivity.
  rewrite cleanPath_cons2.
  destruct (Ascii.eqb c slash) eqn:E; destruct (Ascii.eqb c' slash) eqn:E'; cbn [andb].
  - cbn [without_slashes]. rewrite E, E', Ascii.eqb_refl. exact IH1.
  - cbn [without_slashes] in *. rewrite E in *. exact IH2.
  - cbn [without_slashes] in *. rewrite E in *. rewrite IH2. reflexivity.
  - cbn [without_slashes] in *. rewrite E in *. rewrite IH2. reflexivity.
Qed.

Lemma cleanPath_slash_cons (rest : string) :
  starts_with_slash rest = false -> cleanPath (String slash rest) = String slash (cleanPath rest).
Proof.
  destruct rest as [|c r]; [reflexivity|]. cbn [starts_with_slash]. intros H.
  rewrite cleanPath_cons2, H, andb_false_r. reflexivity.
Qed.

Lemma cleanPath_runs (n : nat) (rest : string) :
  starts_with_slash rest = false ->
  cleanPath (slashes n ++ rest) = (slashes (Nat.div2 (S n)) ++ cleanPath rest)%string
  /\ cleanPath (slashes (S n) ++ rest)
     = (slashes (Nat.div2 (S (S n))) ++ cleanPath rest)%string.
Proof.
  intros H. induction n as [|n [IH1 IH2]].
  - split; [reflexivity|]. cbn [slashes append Nat.div2]. apply cleanPath_slash_cons, H.
  - split; [exact IH2|].
    change (slashes (S (S n)) ++ rest)%string
      with (String slash (String slash (slashes n ++ rest))).
    rewrite cleanPath_cons2, Ascii.eqb_refl. cbn [andb]. rewrite IH1. reflexivity.
Qed.

(** [cleanPath] halves a run of separators, rounding up: a run of [n]
    separators at the start of a path becomes a run of [(n + 1) / 2], and
    the rest of the path is collapsed on its own. *)
Theorem cleanPath_halves_runs :
  forall (n : nat) (rest : string),
    starts_with_slash rest = false ->
    cleanPath (slashes n ++ rest) = (slashes (Nat.div2 (S n)) ++ cleanPath rest)%string.
Proof.
  intros n rest H. apply (cleanPath_runs n rest H).
Qed.

(** Five separators become three. *)
Lemma cleanPath_halves_runs_witness :
  starts_with_slash "x" = false /\ cleanPath "/////x" = "///x".
Proof.
  split; [reflexivity|]. apply (cleanPath_halves_runs 5 "x"). reflexivity.
Defined.

Lemma doubled_at_join_tail (c c' : ascii) (r b : string) :
  doubled_at_join (String c (String c' r)) b = false ->
  doubled_at_join (String c' r) b = false /\ doubled_at_join r b = false.
Proof.
  unfold doubled_at_join. intros H. split; [exact H|].
  destruct r as [|c'' r']; [reflexivity | exact H].
Qed.

(** [cleanPath] distributes over a concatenation that makes no doubled
    separator at the join.  With the suffixes ["/api-docs"] and ["/openapi"]:
    when the base path does not end with a separator, a tooling link is the
    collapsed base path followed by the suffix. *)
Theorem cleanPath_app :
  forall a b : string,
    doubled_at_join a b = false ->
    cleanPath (a ++ b) = (cleanPath a ++ cleanPath b)%string.
Proof.
  intros a b. induction a as [|c|c c' r IH1 IH2] using string_pair_ind; intros H.
  - reflexivity.
  - destruct b as [|c' r]; [reflexivity|].
    unfold doubled_at_join in H. cbn [ends_with_slash starts_with_slash] in H.
    cbn [append]. rewrite cleanPath_cons2, H. reflexivity.
  - apply doubled_at_join_tail in H. destruct H as [H2 H1].
    change ((String c (String c' r)) ++ b)%string with (String c (String c' (r ++ b))).
    rewrite !cleanPath_cons2.
    destruct (Ascii.eqb c slash && Ascii.eqb c' slash).
    + rewrite IH1 by exact H1. reflexivity.
    + change (String c' (r ++ b)) with ((String c' r) ++ b)%string.
      rewrite IH2 by exact H2. reflexivity.
Qed.

(** The tooling link of the base path ["/api//v4"]. *)
Lemma cleanPath_app_witness :
  doubled_at_join "/api//v4" "/api-docs" = false
  /\ cleanPath ("/api//v4" ++ "/api-docs") = "/api/v4/api-docs".
Proof.
  split; [reflexivity|]. apply (cleanPath_app "/api//v4" "/api-docs"). reflexivity.
Defined.

(** ** The final separator *)

Lemma replace_final_slash_fixed (s : string) :
  ends_with_slash s = false -> replace_final_slash s = s.
Proof.
  induction s as [|c|c c' r IH1 IH2] using string_pair_ind; intros H.
  - reflexivity.
  - cbn in *. rewrite H. reflexivity.
  - change (replace_final_slash (String c (String c' r)))
      with (String c (replace_final_slash (String c' r))).
    rewrite IH2; [reflexivity | exact H].
Qed.

Lemma replace_final_slash_shorter (s : string) :
  ends_with_slash s = true -> String.length (replace_final_slash s) < String.length s.
Proof.
  induction s as [|c|c c' r IH1 IH2] using string_pair_ind; intros H.
  - discriminate.
  - cbn in *. rewrite H. cbn. lia.
  - change (replace_final_slash (String c (String c' r)))
      with (String c (replace_final_slash (String c' r))).
    cbn [String.length]. apply -> Nat.succ_lt_mono. apply IH2. exact H.
Qed.

Lemma stripTrailingSlash_identity (s : string) :
  stripTrailingSlash s = s <-> (ends_with_slash s = false \/ s = "/").
Proof.
  split.
  - intros H. destruct (ends_with_slash s) eqn:E; [right | left; reflexivity].
    unfold stripTrailingSlash in H.
    destruct (replace_final_slash s =? "") eqn:R.
    + apply String.eqb_eq, replace_final_slash_empty in R.
      destruct R as [->|R]; [discriminate | exact R].
    + pose proof (replace_final_slash_shorter s E) as L. rewrite H in L. lia.
  - intros [H| ->]; [|reflexivity].
    unfold stripTrailingSlash. rewrite replace_final_slash_fixed by exact H.
    destruct (s =? ""); reflexivity.
Qed.

Lemma stripTrailingSlash_empty (s : string) :
  (stripTrailingSlash s =? "") = (s =? "").
Proof.
  unfold stripTrailingSlash.
  destruct (replace_final_slash s =? "") eqn:R; [reflexivity|].
  rewrite R. destruct s; [discriminate R | reflexivity].
Qed.

(** [stripTrailingSlash] undoes the addition of one final separator to a
    string that is not empty; it returns ["/"] for ["/"], where the
    replacement leaves the empty string and the argument is returned in its
    place; it leaves a string as it is exactly when the string does not end
    with a separator or is ["/"]; and it returns the empty string for the
    empty string only. *)
Theorem stripTrailingSlash_removes_one_separator :
  forall (c : ascii) (r s : string),
    stripTrailingSlash (String c r ++ "/") = String c r
    /\ stripTrailingSlash "/" = "/"
    /\ (stripTrailingSlash s = s <-> (ends_with_slash s = false \/ s = "/"))
    /\ (stripTrailingSlash s =? "") = (s =? "").
Proof.
  intros c r s. split.
  - rewrite stripTrailingSlash_app by discriminate. cbn [replace_final_slash].
    rewrite Ascii.eqb_refl. clear s. induction r as [|x r IH] in c |- *; cbn; [reflexivity|].
    f_equal. apply IH.
  - split; [reflexivity|].
    split; [apply stripTrailingSlash_identity | apply stripTrailingSlash_empty].
Qed.

(** ** The base path *)

Lemma str_or_nonempty (s : option string) (b : string) :
  (b =? "") = false -> (str_or s b =? "") = false.
Proof.
  intros H. destruct s as [[|c r]|]; cbn; auto.
Qed.

Lemma resolved_nonempty (d : ApiSpecification) : (resolved d =? "") = false.
Proof.
  unfold resolved, resolve_basePath. cbn [chain read_basePath].
  destruct (servers d) as [[|s l]|]; cbn [chain hd_error];
    try (apply str_or_nonempty; reflexivity).
  destruct (url s) as [u|]; cbn [chain]; [|apply str_or_nonempty; reflexivity].
  destruct (u =? "") eqn:E; [apply str_or_nonempty; reflexivity | exact E].
Qed.

(** The base path that is resolved for a specification that is present is
    never the empty string, whatever [servers] and [basePath] hold, and
    neither is the prefix of the hrefs of the operations, the base path
    without its final separator. *)
Theorem basePath_is_never_empty :
  forall d : ApiSpecification,
    exists b,
      resolve_basePath (Some d) = Normal b
      /\ (b =? "") = false
      /\ (stripTrailingSlash b =? "") = false.
Proof.
  intros d. exists (resolved d). split; [apply resolve_basePath_present|].
  rewrite stripTrailingSlash_empty. split; apply resolved_nonempty.
Qed.

(** ** The self link and [info] *)

Lemma link_of_self (d : ApiSpecification) (env : Env) (w : World) :
  (forall x, In x (operations d) -> ~ named "self" (snd (snd x))) ->
  link_of "self" (snd (entrypoint (Normal (Some d)) env w)) = Some (self_entry d env).
Proof.
  intros H. rewrite entrypoint_present. unfold link_of. cbn [snd]. rewrite links_of_sent.
  unfold links_document. cbn [chain].
  rewrite links_after_unnamed by exact H. reflexivity.
Qed.

Lemma cleanPath_empty (s : string) : (cleanPath s =? "") = (s =? "").
Proof.
  destruct s as [|c [|c' r]]; try reflexivity.
  rewrite cleanPath_cons2. destruct (Ascii.eqb c slash && Ascii.eqb c' slash); reflexivity.
Qed.

Lemma append_nonempty (a b : string) : (b =? "") = false -> ((a ++ b)%string =? "") = false.
Proof. destruct a; [auto | reflexivity]. Qed.

Lemma js_or_truthy (a : option json) (b : json) : truthy b = true -> truthy (js_or a b) = true.
Proof.
  intros H. unfold js_or. destruct a as [v|]; [|exact H].
  destruct (truthy v) eqn:E; [exact E | exact H].
Qed.

Lemma truthy_JStr (s : string) : (s =? "") = false -> truthy (JStr s) = true.
Proof. intros H. cbn. rewrite H. reflexivity. Qed.

(** Eight of the nine explicit fields of the self link cannot be changed by
    [info], whatever its keys and values, because the value that the literal
    gives them is never falsy: [href] is the base path; [id] and [name] are
    the values of [RELEASE_NAME] and [COMPONENT_NAME] when these are set and
    not empty, and ["tmf673"] and ["geographicaddress"] otherwise; [status]
    is ["running"]; [version] and [title] are those of [info] when they are
    truthy, and the defaults otherwise; the tooling links are the collapsed
    base path with its suffix.  (For every specification none of whose
    operations has the operationId ["self"].) *)
Theorem info_cannot_override_fixed_fields :
  forall (d : ApiSpecification) (env : Env) (w : World),
    (forall x, In x (operations d) -> ~ named "self" (snd (snd x))) ->
    exists self,
      link_of "self" (snd (entrypoint (Normal (Some d)) env w)) = Some self
      /\ lookup "href" self = Some (JStr (resolved d))
      /\ lookup "id" self
         = Some (JStr (match present_nonempty (RELEASE_NAME env) with
                       | Some v => v
                       | None => "tmf673"
                       end))
      /\ lookup "name" self
         = Some (JStr (match present_nonempty (COMPONENT_NAME env) with
                       | Some v => v
                       | None => "geographicaddress"
                       end))
      /\ lookup "status" self = Some (JStr "running")
      /\ lookup "version" self
         = Some (js_or (info d ?. lookup "version") (JStr "4.0.1"))
      /\ lookup "title" self
         = Some (js_or (info d ?. lookup "title") (JStr "Geographic Address Management API"))
      /\ lookup "swagger-ui" self = Some (JStr (cleanPath (resolved d ++ "/api-docs")))
      /\ lookup "openapi" self = Some (JStr (cleanPath (resolved d ++ "/openapi"))).
Proof.
  intros d env w H. exists (self_entry d env). split; [apply link_of_self, H|].
  rewrite <- !str_or_stated.
  repeat split; apply truthy_explicit_field_is_kept; try reflexivity.
  - apply truthy_JStr, resolved_nonempty.
  - apply truthy_JStr, str_or_nonempty. reflexivity.
  - apply truthy_JStr, str_or_nonempty. reflexivity.
  - apply js_or_truthy. reflexivity.
  - apply js_or_truthy. reflexivity.
  - apply truthy_JStr. rewrite cleanPath_empty. apply append_nonempty. reflexivity.
  - apply truthy_JStr. rewrite cleanPath_empty. apply append_nonempty. reflexivity.
Qed.

Lemma catalog_has_no_self_operation :
  forall x, In x (operations catalog_document) -> ~ named "self" (snd (snd x)).
Proof.
  intros x Hx [E _]. simpl in Hx.
  destruct Hx as [<-|[<-|[<-|[]]]]; discriminate E.
Qed.

Lemma catalog_info_keys :
  forall i, info catalog_document = Some i -> NoDup (keys i).
Proof.
  intros i [= <-]. repeat constructor; simpl; intuition discriminate.
Qed.

(** The fixed fields of the self link of the catalog document, whose [info]
    has a title and no version, with [RELEASE_NAME] set to the empty
    string. *)
Lemma info_cannot_override_fixed_fields_witness :
  exists self,
    link_of "self" (snd (entrypoint (Normal (Some catalog_document))
                           {| COMPONENT_NAME := Some "catalog"; RELEASE_NAME := Some "" |}
                           fresh_world)) = Some self
    /\ lookup "href" self = Some (JStr "/tmf-api/geographicAddressManagement/v4")
    /\ lookup "id" self = Some (JStr "tmf673")
    /\ lookup "name" self = Some (JStr "catalog")
    /\ lookup "status" self = Some (JStr "running")
    /\ lookup "version" self = Some (JStr "4.0.1")
    /\ lookup "title" self = Some (JStr "Catalog")
    /\ lookup "swagger-ui" self
       = Some (JStr "/tmf-api/geographicAddressManagement/v4/api-docs")
    /\ lookup "openapi" self
       = Some (JStr "/tmf-api/geographicAddressManagement/v4/openapi").
Proof.
  apply (info_cannot_override_fixed_fields catalog_document
           {| COMPONENT_NAME := Some "catalog"; RELEASE_NAME := Some "" |} fresh_world).
  apply catalog_has_no_self_operation.
Defined.

Lemma merge_info_other (self : object) (k infoKey : string) (value : json) :
  k <> infoKey -> lookup k (merge_info self infoKey value) = lookup k self.
Proof.
  intros N. unfold merge_info. destruct (falsy_at self infoKey); [|reflexivity].
  apply lookup_assign_other, N.
Qed.

Lemma for_in_merge_other (i self : object) (k : string) :
  ~ In k (keys i) -> lookup k (for_in i merge_info self) = lookup k self.
Proof.
  unfold for_in. revert self.
  induction i as [|[infoKey value] i IH]; intros self N; simpl in *; [reflexivity|].
  rewrite IH by tauto. apply merge_info_other. intros ->. tauto.
Qed.

Lemma lookup_cons_other {A : Type} (k k' : string) (v : A) (o : list (string * A)) :
  k' <> k -> lookup k ((k', v) :: o) = lookup k o.
Proof.
  intros N. cbn [lookup]. apply String.eqb_neq in N. rewrite N. reflexivity.
Qed.

(** A field whose value is falsy takes the value that [info] has for it. *)
Lemma for_in_merge_falsy (i self : object) (k : string) (v0 : json) :
  NoDup (keys i) -> k <> "__proto__" ->
  lookup k self = Some v0 -> truthy v0 = false ->
  lookup k (for_in i merge_info self)
  = Some (match lookup k i with Some v => v | None => v0 end).
Proof.
  unfold for_in. revert self.
  induction i as [|[infoKey value] i IH]; intros self ND R L F; [exact L|].
  cbn [fold_left fst snd]. cbn [keys map fst] in ND. apply NoDup_cons_iff in ND.
  destruct ND as [NI ND].
  destruct (string_dec infoKey k) as [->|N].
  - cbn [lookup]. rewrite String.eqb_refl.
    fold (for_in i merge_info (merge_info self k value)).
    rewrite for_in_merge_other by exact NI.
    unfold merge_info, falsy_at. rewrite L, F. apply lookup_assign_same, R.
  - rewrite lookup_cons_other by exact N.
    apply IH; try assumption.
    rewrite merge_info_other by congruence. exact L.
Qed.

(** A key that the self link does not have is added with the value that
    [info] has for it, unless the self link inherits a property of that
    name. *)
Lemma for_in_merge_new (i self : object) (k : string) :
  NoDup (keys i) -> lookup k self = None ->
  lookup k (for_in i merge_info self) = if inherited k then None else lookup k i.
Proof.
  unfold for_in. revert self.
  induction i as [|[infoKey value] i IH]; intros self ND L.
  - cbn [fold_left lookup]. rewrite L. destruct (inherited k); reflexivity.
  - cbn [fold_left fst snd]. cbn [keys map fst] in ND. apply NoDup_cons_iff in ND.
    destruct ND as [NI ND].
    destruct (string_dec infoKey k) as [->|N].
    + cbn [lookup]. rewrite String.eqb_refl.
      fold (for_in i merge_info (merge_info self k value)).
      rewrite for_in_merge_other by exact NI.
      unfold merge_info, falsy_at. rewrite L.
      destruct (inherited k) eqn:E; [exact L|]. cbn [negb].
      apply lookup_assign_same. intros ->. discriminate E.
    + rewrite lookup_cons_other by exact N.
      apply IH; [exact ND|].
      rewrite merge_info_other by congruence. exact L.
Qed.

Lemma self_literal_other (swaggerDoc : option ApiSpecification)
    (basePath releaseName componentName k : string) :
  ~ In k explicit_fields ->
  lookup k (self_literal swaggerDoc basePath releaseName componentName) = None.
Proof.
  intros N. unfold self_literal. cbn [lookup].
  repeat match goal with
         | |- context [String.eqb ?f k] =>
             destruct (String.eqb_spec f k) as [E|_];
             [exfalso; apply N; rewrite <- E; simpl; tauto|]
         end.
  reflexivity.
Qed.

Lemma lookup_self_literal_description (d : ApiSpecification)
    (basePath releaseName componentName : string) :
  lookup "description" (self_literal (Some d) basePath releaseName componentName)
  = Some (js_or (info d ?. lookup "description") (JStr "")).
Proof. reflexivity. Qed.

(** The [description] of the self link is the value that [info] has for
    [description] whenever [info] has that key, whether the value is truthy
    or not ([null], [false], [0] and the empty string are sent as they
    are), and the empty string otherwise.  (The keys of [info] are distinct,
    and no operation has the operationId ["self"].) *)
Theorem self_description_follows_info :
  forall (d : ApiSpecification) (env : Env) (w : World),
    (forall i, info d = Some i -> NoDup (keys i)) ->
    (forall x, In x (operations d) -> ~ named "self" (snd (snd x))) ->
    exists self,
      link_of "self" (snd (entrypoint (Normal (Some d)) env w)) = Some self
      /\ lookup "description" self
         = Some (match info d ?. lookup "description" with
                 | Some v => v
                 | None => JStr ""
                 end).
Proof.
  intros d env w ND H. exists (self_entry d env). split; [apply link_of_self, H|].
  unfold self_entry.
  pose proof (lookup_self_literal_description d (resolved d)
                (str_or (RELEASE_NAME env) "tmf673")
                (str_or (COMPONENT_NAME env) "geographicaddress")) as L0.
  destruct (info d) as [i|] eqn:Ei; [|exact L0].
  cbn [chain] in *. specialize (ND i eq_refl).
  destruct (lookup "description" i) as [v|] eqn:L; cbn [js_or] in L0.
  - destruct (truthy v) eqn:T.
    + apply for_in_merge_keeps_truthy; assumption.
    + rewrite (for_in_merge_falsy i _ "description" (JStr "") ND);
        [rewrite L; reflexivity | discriminate | exact L0 | reflexivity].
  - rewrite (for_in_merge_falsy i _ "description" (JStr "") ND);
      [rewrite L; reflexivity | discriminate | exact L0 | reflexivity].
Qed.

(** The description [false] of the catalog document is sent as it is. *)
Lemma self_description_follows_info_witness :
  exists self,
    link_of "self" (snd (entrypoint (Normal (Some catalog_document)) no_env fresh_world))
    = Some self
    /\ lookup "description" self = Some (JBool false).
Proof.
  apply (self_description_follows_info catalog_document no_env fresh_world).
  - apply catalog_info_keys.
  - apply catalog_has_no_self_operation.
Defined.

(** Beside the explicit fields, the self link has the keys of [info] with
    the values of [info], and nothing else; a key of [info] that names a
    property which every object inherits ([constructor], [toString],
    [valueOf], [hasOwnProperty], [__proto__], ...) is not copied, because the
    inherited value is truthy.  (The keys of [info] are distinct, and no
    operation has the operationId ["self"].) *)
Theorem info_keys_are_merged :
  forall (d : ApiSpecification) (env : Env) (w : World) (k : string),
    (forall i, info d = Some i -> NoDup (keys i)) ->
    (forall x, In x (operations d) -> ~ named "self" (snd (snd x))) ->
    ~ In k explicit_fields ->
    exists self,
      link_of "self" (snd (entrypoint (Normal (Some d)) env w)) = Some self
      /\ lookup k self = if inherited k then None else info d ?. lookup k.
Proof.
  intros d env w k ND H N. exists (self_entry d env). split; [apply link_of_self, H|].
  unfold self_entry. destruct (info d) as [i|] eqn:Ei.
  - cbn [chain]. apply for_in_merge_new; [apply ND; reflexivity|].
    apply self_literal_other, N.
  - cbn [chain]. rewrite self_literal_other by exact N. destruct (inherited k); reflexivity.
Qed.

(** The key [toString] of the catalog document is not copied. *)
Lemma info_keys_are_merged_witness :
  exists self,
    link_of "self" (snd (entrypoint (Normal (Some catalog_document)) no_env fresh_world))
    = Some self
    /\ lookup "toString" self = None.
Proof.
  apply (info_keys_are_merged catalog_document no_env fresh_world "toString").
  - apply catalog_info_keys.
  - apply catalog_has_no_self_operation.
  - simpl. intuition discriminate.
Defined.

(** ** The order of the keys *)

Lemma mem_In (k : string) (names : list string) : mem k names = true <-> In k names.
Proof.
  unfold mem. rewrite existsb_exists. split.
  - intros (x & Hx & E). apply String.eqb_eq in E. subst x. exact Hx.
  - intros H. exists k. split; [exact H | apply String.eqb_refl].
Qed.

Lemma mem_ext (k : string) (a b : list string) :
  (forall x, In x a <-> In x b) -> mem k a = mem k b.
Proof.
  intros H. apply eq_true_iff_eq. rewrite !mem_In. apply H.
Qed.

Lemma has_key_mem {A : Type} (k : string) (o : list (string * A)) :
  has_key k o = mem k (keys o).
Proof.
  apply eq_true_iff_eq. rewrite mem_In, lookup_In_keys. unfold has_key.
  destruct (lookup k o); split; congruence.
Qed.

(** A key that is not an array index is added after the keys that are
    there. *)
Lemma keys_set_prop {A : Type} (o : list (string * A)) (k : string) (v : A) :
  array_index k = None ->
  keys (set_prop o k v) = if mem k (keys o) then keys o else keys o ++ [k].
Proof.
  intros I. unfold set_prop. rewrite <- has_key_mem. destruct (has_key k o).
  - apply keys_replace_prop.
  - rewrite I. unfold keys. rewrite map_app. reflexivity.
Qed.

Lemma first_occurrences_ext (a b l : list string) :
  (forall x, In x a <-> In x b) -> first_occurrences a l = first_occurrences b l.
Proof.
  revert a b. induction l as [|x r IH]; intros a b H; [reflexivity|].
  cbn [first_occurrences]. rewrite (mem_ext x a b H).
  destruct (mem x b); [apply IH, H|].
  f_equal. apply IH. intros y. simpl. rewrite H. reflexivity.
Qed.

Lemma first_occurrences_snoc (seen l : list string) (x : string) :
  first_occurrences (seen ++ [x]) l = first_occurrences (x :: seen) l.
Proof.
  apply first_occurrences_ext. intros y. rewrite in_app_iff. simpl. tauto.
Qed.

Lemma keys_merge_info (self : object) (infoKey : string) (value : json) :
  array_index infoKey = None ->
  keys (merge_info self infoKey value)
  = if mem infoKey (keys self) || inherited infoKey then keys self
    else keys self ++ [infoKey].
Proof.
  intros I. unfold merge_info, falsy_at.
  rewrite <- has_key_mem. unfold has_key.
  destruct (lookup infoKey self) as [v|] eqn:L.
  - cbn [orb]. destruct (negb (truthy v)); [|reflexivity].
    unfold assign. destruct (infoKey =? "__proto__"); [reflexivity|].
    rewrite keys_set_prop by exact I. rewrite <- has_key_mem. unfold has_key. rewrite L.
    reflexivity.
  - cbn [orb]. destruct (inherited infoKey) eqn:E; [reflexivity|]. cbn [negb].
    unfold assign. destruct (infoKey =? "__proto__") eqn:P.
    + apply String.eqb_eq in P. subst infoKey. discriminate E.
    + rewrite keys_set_prop by exact I. rewrite <- has_key_mem. unfold has_key. rewrite L.
      reflexivity.
Qed.

Lemma keys_for_in_merge (i self : object) :
  NoDup (keys i) ->
  (forall k, In k (keys i) -> array_index k = None) ->
  keys (for_in i merge_info self)
  = keys self
    ++ filter (fun k => negb (mem k (keys self)) && negb (inherited k)) (keys i).
Proof.
  unfold for_in. revert self.
  induction i as [|[infoKey value] i IH]; intros self ND I.
  - cbn. rewrite app_nil_r. reflexivity.
  - cbn [fold_left fst snd]. cbn [keys map fst] in ND. apply NoDup_cons_iff in ND.
    destruct ND as [NI ND].
    rewrite IH; [|exact ND | intros k Hk; apply I; right; exact Hk].
    rewrite keys_merge_info by (apply I; left; reflexivity).
    cbn [keys map fst filter]. fold (keys i).
    destruct (mem infoKey (keys self) || inherited infoKey) eqn:E.
    + rewrite <- negb_orb, E. reflexivity.
    + rewrite <- negb_orb, E. cbn [negb]. rewrite <- app_assoc. cbn [app]. f_equal. f_equal.
      apply filter_ext_in. intros k Hk. f_equal. f_equal.
      apply eq_true_iff_eq. rewrite !mem_In, in_app_iff. simpl.
      split; [|tauto]. intros [H|[<-|[]]]; [exact H | contradiction].
Qed.

(** The keys of the self link are the nine explicit fields in the order of
    the literal, followed by the other keys of [info] that are copied, in
    the order of [info].  (The keys of [info] are distinct and none is an
    array index, which would be enumerated first; no operation has the
    operationId ["self"].) *)
Theorem self_link_key_order :
  forall (d : ApiSpecification) (env : Env) (w : World) (i : object),
    info d = Some i ->
    NoDup (keys i) ->
    (forall k, In k (keys i) -> array_index k = None) ->
    (forall x, In x (operations d) -> ~ named "self" (snd (snd x))) ->
    exists self,
      link_of "self" (snd (entrypoint (Normal (Some d)) env w)) = Some self
      /\ keys self
         = explicit_fields
           ++ filter (fun k => negb (mem k explicit_fields) && negb (inherited k)) (keys i).
Proof.
  intros d env w i Ei ND I H. exists (self_entry d env). split; [apply link_of_self, H|].
  unfold self_entry. rewrite Ei. rewrite keys_for_in_merge by assumption.
  reflexivity.
Qed.

(** The keys of the self link of the catalog document: [contact] is added,
    [title], [description] and [toString] are not. *)
Lemma self_link_key_order_witness :
  exists self,
    link_of "self" (snd (entrypoint (Normal (Some catalog_document)) no_env fresh_world))
    = Some self
    /\ keys self
       = [ "href"; "id"; "name"; "status"; "version"; "title"; "description";
           "swagger-ui"; "openapi"; "contact" ].
Proof.
  apply (self_link_key_order catalog_document no_env fresh_world
           [ ("title", JStr "Catalog"); ("description", JBool false);
             ("contact", JObj []); ("toString", JStr "x") ]).
  - reflexivity.
  - apply catalog_info_keys. reflexivity.
  - intros k Hk. simpl in Hk.
    destruct Hk as [<-|[<-|[<-|[<-|[]]]]]; reflexivity.
  - apply catalog_has_no_self_operation.
Defined.

Lemma link_step_link_name (base : string) (links : object)
    (x : string * (string * Operation)) :
  link_step base links x
  = match link_name (snd (snd x)) with
    | Some id =>
        set_prop links id (JObj (link_literal base (fst x) (fst (snd x)) id (snd (snd x))))
    | None => links
    end.
Proof.
  destruct x as [pathKey [methodKey operation]].
  unfold link_step, link_operation, link_name, assign. cbn [fst snd].
  destruct (operationId operation) as [id|]; [|reflexivity].
  destruct (id =? ""); [reflexivity|]. cbn [orb].
  destruct (id =? "__proto__"); reflexivity.
Qed.

Lemma keys_links_after (base : string) (ops : list (string * (string * Operation)))
    (links : object) :
  (forall id, In id (link_names ops) -> array_index id = None) ->
  keys (links_after base ops links)
  = keys links ++ first_occurrences (keys links) (link_names ops).
Proof.
  unfold links_after. revert links.
  induction ops as [|x ops IH]; intros links I.
  - cbn. rewrite app_nil_r. reflexivity.
  - cbn [fold_left link_names flat_map]. fold (link_names ops).
    assert (I' : forall id, In id (link_names ops) -> array_index id = None).
    { intros id Hid. apply I. cbn [link_names flat_map]. apply in_or_app. right. exact Hid. }
    rewrite IH by exact I'. rewrite link_step_link_name.
    destruct (link_name (snd (snd x))) as [id|] eqn:E; [|reflexivity].
    cbn [app first_occurrences].
    rewrite keys_set_prop
      by (apply I; cbn [link_names flat_map]; rewrite E; left; reflexivity).
    destruct (mem id (keys links)); [reflexivity|].
    rewrite <- app_assoc. cbn [app]. rewrite first_occurrences_snoc. reflexivity.
Qed.

(** The entries of [_links] are the self link followed by the links of the
    operations, each name at the place of its first occurrence in the
    traversal of paths and methods: a later operation with the same
    operationId replaces the content of the link and does not move it.
    (No operationId is an array index, which would be enumerated before the
    self link.) *)
Theorem links_are_in_order_of_first_occurrence :
  forall (d : ApiSpecification) (env : Env) (w : World),
    (forall id, In id (link_names (operations d)) -> array_index id = None) ->
    exists links,
      links_of (snd (entrypoint (Normal (Some d)) env w)) = Some links
      /\ keys links = "self" :: first_occurrences ["self"] (link_names (operations d)).
Proof.
  intros d env w I. exists (links_document d env).
  rewrite entrypoint_present. cbn [snd]. rewrite links_of_sent.
  split; [reflexivity|]. unfold links_document.
  rewrite keys_links_after by exact I. reflexivity.
Qed.

(** The links of the catalog document, whose third operation has the
    operationId of the first. *)
Lemma links_are_in_order_of_first_occurrence_witness :
  exists links,
    links_of (snd (entrypoint (Normal (Some catalog_document)) no_env fresh_world))
    = Some links
    /\ keys links = [ "self"; "listA"; "addA" ].
Proof.
  apply (links_are_in_order_of_first_occurrence catalog_document no_env fresh_world).
  intros id Hid. simpl in Hid.
  destruct Hid as [<-|[<-|[<-|[]]]]; reflexivity.
Defined.

(** Why array indices are set apart: an operationId that is an array index
    puts its link before the self link. *)
Lemma index_named_link_precedes_self (id : string) (n : N) (env : Env) :
  array_index id = Some n ->
  keys (links_document (document_with_operation id) env) = [ id; "self" ].
Proof.
  intros I. unfold links_document, links_after, operations. cbn [paths document_with_operation
    flat_map map fst snd app fold_left].
  rewrite link_step_link_name. cbn [fst snd link_name operationId].
  destruct (id =? "") eqn:E0.
  { apply String.eqb_eq in E0. subst id. discriminate I. }
  destruct (id =? "__proto__") eqn:E1.
  { apply String.eqb_eq in E1. subst id. discriminate I. }
  cbn [orb]. unfold set_prop, has_key. cbn [lookup].
  destruct ("self" =? id) eqn:E2.
  { apply String.eqb_eq in E2. subst id. discriminate I. }
  rewrite I. reflexivity.
Qed.

(** * Part II: properties *)

Module Frame.

Import Store.

Section Facts.

Context {engine : Engine}.

(** ** Stores that keep the store at entry *)

Lemma keeps_refl (h0 : heap) : keeps h0 h0.
Proof. exists []. symmetry. apply app_nil_r. Qed.

Lemma keeps_nth_error (h0 h : heap) (l : nat) :
  keeps h0 h -> l < length h0 -> nth_error h l = nth_error h0 l.
Proof.
  intros [fresh ->] H. apply nth_error_app1. exact H.
Qed.

Lemma keeps_length (h0 h : heap) : keeps h0 h -> length h0 <= length h.
Proof. intros [fresh ->]. rewrite length_app. lia. Qed.

Lemma keeps_alloc (h0 h : heap) (c : cell) : keeps h0 h -> keeps h0 (h ++ [c]).
Proof.
  intros [fresh ->]. exists (fresh ++ [c]). symmetry. apply app_assoc.
Qed.

Lemma put_length (l : nat) (c : cell) (h : heap) : length (put l c h) = length h.
Proof.
  revert l. induction h as [|x r IH]; intros [|n]; simpl; auto.
Qed.

Lemma put_app_fresh (l : nat) (c : cell) (a b : heap) :
  length a <= l -> put l c (a ++ b) = a ++ put (l - length a) c b.
Proof.
  revert l. induction a as [|x a IH]; intros l H; simpl in *.
  - rewrite Nat.sub_0_r. reflexivity.
  - destruct l as [|n]; [lia|]. simpl. f_equal. apply IH. lia.
Qed.

Lemma keeps_put (h0 h : heap) (l : nat) (c : cell) :
  keeps h0 h -> length h0 <= l -> keeps h0 (put l c h).
Proof.
  intros [fresh ->] H. rewrite put_app_fresh by exact H. eexists. reflexivity.
Qed.

Lemma nth_error_put_same (l : nat) (c : cell) (h : heap) :
  l < length h -> nth_error (put l c h) l = Some c.
Proof.
  revert l. induction h as [|x r IH]; intros [|n] H; simpl in *; try lia; auto.
  apply IH. lia.
Qed.

Lemma nth_error_put_other (l l' : nat) (c : cell) (h : heap) :
  l' <> l -> nth_error (put l c h) l' = nth_error h l'.
Proof.
  revert l l'. induction h as [|x r IH]; intros [|n] [|n'] H; simpl; auto; try congruence.
Qed.

(** ** Rules *)

Lemma triple_ret {A : Type} (h0 : heap) (P : heap -> Prop) (Q : A -> heap -> Prop) (a : A) :
  (forall h, P h -> Q a h) -> triple h0 P (ret a) Q.
Proof. intros H h Ph. apply H, Ph. Qed.

Lemma triple_bind {A B : Type} (h0 : heap) (P : heap -> Prop) (R : A -> heap -> Prop)
    (Q : B -> heap -> Prop) (m : M heap A) (f : A -> M heap B) :
  triple h0 P m R -> (forall a, triple h0 (R a) (f a) Q) -> triple h0 P (bind m f) Q.
Proof.
  intros Hm Hf h Ph. unfold bind. specialize (Hm h Ph).
  destruct (m h) as [[a|e] h']; [apply (Hf a h' Hm) | exact Hm].
Qed.

Lemma triple_weaken {A : Type} (h0 : heap) (P P' : heap -> Prop) (Q Q' : A -> heap -> Prop)
    (m : M heap A) :
  triple h0 P' m Q' -> (forall h, P h -> P' h) -> (forall a h, Q' a h -> Q a h) ->
  triple h0 P m Q.
Proof.
  intros Hm HP HQ h Ph. specialize (Hm h (HP h Ph)).
  destruct (m h) as [[a|e] h']; [apply HQ, Hm | exact Hm].
Qed.

(** After a computation that only reads, the store still satisfies [P]; the
    continuation may use the result of the read in every store that keeps
    [h0]. *)
Lemma triple_read {A B : Type} (h0 : heap) (G : A -> Prop) (P : heap -> Prop)
    (Q : B -> heap -> Prop) (m : M heap A) (f : A -> M heap B) :
  reads h0 G m ->
  (forall h, P h -> keeps h0 h) ->
  (forall a, G a -> (forall h, keeps h0 h -> m h = (Normal a, h)) -> triple h0 P (f a) Q) ->
  triple h0 P (bind m f) Q.
Proof.
  intros (r & Hr & Hm) HP Hf h Ph. unfold bind. rewrite (Hm h (HP h Ph)).
  destruct r as [a|e]; [|apply HP, Ph].
  apply (Hf a (Hr a eq_refl) Hm h Ph).
Qed.

Lemma triple_when (h0 : heap) (P : heap -> Prop) (Q : unit -> heap -> Prop) (b : bool)
    (m : M heap unit) :
  (b = true -> triple h0 P m Q) -> (forall h, P h -> Q tt h) ->
  triple h0 P (when b m) Q.
Proof.
  intros Hm H. destruct b; [apply Hm; reflexivity | apply triple_ret, H].
Qed.

Lemma triple_for_each (h0 : heap) (I : heap -> Prop) (ks : list string)
    (body : string -> M heap unit) :
  (forall k, triple h0 I (body k) (fun _ => I)) ->
  triple h0 I (for_each ks body) (fun _ => I).
Proof.
  intros Hb. induction ks as [|k r IH]; simpl.
  - apply triple_ret. auto.
  - apply (triple_bind h0 I (fun _ => I)); [apply Hb | intros _; exact IH].
Qed.

Lemma triple_for_in (h0 : heap) (I : heap -> Prop) (v : value)
    (body : string -> M heap unit) :
  (forall k, triple h0 I (body k) (fun _ => I)) ->
  triple h0 I (for_in v body) (fun _ => I).
Proof.
  intros Hb h Ih. unfold for_in.
  destruct v as [p|l].
  - destruct p; try exact Ih; apply (triple_for_each h0 I _ body Hb h Ih).
  - apply (triple_for_each h0 I _ body Hb h Ih).
Qed.

(** ** Reads *)

Lemma reads_ret {A : Type} (h0 : heap) (G : A -> Prop) (a : A) :
  G a -> reads h0 G (ret a).
Proof.
  intros H. exists (Normal a). split; [intros a' [= <-]; exact H | reflexivity].
Qed.

Lemma reads_lift {A : Type} (h0 : heap) (G : A -> Prop) (o : outcome A) :
  (forall a, o = Normal a -> G a) -> reads h0 G (lift o).
Proof.
  intros H. exists o. split; [exact H | reflexivity].
Qed.

Lemma reads_bind {A B : Type} (h0 : heap) (G : A -> Prop) (G' : B -> Prop)
    (m : M heap A) (f : A -> M heap B) :
  reads h0 G m -> (forall a, G a -> reads h0 G' (f a)) -> reads h0 G' (bind m f).
Proof.
  intros (r & Hr & Hm) Hf. destruct r as [a|e].
  - destruct (Hf a (Hr a eq_refl)) as (r' & Hr' & Hf').
    exists r'. split; [exact Hr'|].
    intros h K. unfold bind. rewrite (Hm h K). apply Hf', K.
  - exists (Throws e). split; [discriminate|].
    intros h K. unfold bind. rewrite (Hm h K). reflexivity.
Qed.

Lemma reads_weaken {A : Type} (h0 : heap) (G G' : A -> Prop) (m : M heap A) :
  reads h0 G m -> (forall a, G a -> G' a) -> reads h0 G' m.
Proof.
  intros (r & Hr & Hm) H. exists r. split; [intros a E; apply H, Hr, E | exact Hm].
Qed.

Lemma get_from_data (fuel : nat) (h : heap) (accessor : value) (l : nat) (k : string)
    (c : cell) :
  nth_error h l = Some c -> proto c = Builtin ->
  get_from fuel h accessor l k
  = match lookup k (props c ++ hidden c) with
    | Some v => v
    | None => if k =? "__proto__" then accessor
              else Prim (builtin_member (is_array c) k)
    end.
Proof.
  intros E B. destruct fuel; simpl; rewrite E, B; reflexivity.
Qed.

Lemma lookup_Forall {A : Type} (P : string * A -> Prop) (k : string) (v : A)
    (o : list (string * A)) :
  Forall P o -> lookup k o = Some v -> exists k', P (k', v).
Proof.
  induction 1 as [|[k0 v0] r H _ IH]; simpl; [discriminate|].
  destruct (k0 =? k); [intros [= <-]; exists k0; exact H | exact IH].
Qed.

Lemma data_store_cell (h0 : heap) (l : nat) :
  data_store h0 -> l < length h0 ->
  exists c, nth_error h0 l = Some c /\ data_cell (length h0) c.
Proof.
  intros D H. destruct (nth_error h0 l) as [c|] eqn:E.
  - exists c. split; [reflexivity|].
    unfold data_store in D. rewrite Forall_forall in D.
    apply D. eapply nth_error_In, E.
  - apply nth_error_None in E. lia.
Qed.

Lemma reads_get (h0 : heap) (v : value) (k : string) :
  data_store h0 -> old (length h0) v -> reads h0 (old (length h0)) (get v k).
Proof.
  intros D O. destruct v as [p|l].
  - destruct p;
      first [ (exists (Throws (TypeError k)); split; [discriminate | reflexivity])
            | match goal with
              | |- reads _ _ (get (Prim ?p) _) =>
                  exists (Normal (Prim (primitive_member p k)));
                  split; [intros a [= <-]; exact I | reflexivity]
              end ].
  - simpl in O. destruct (data_store_cell h0 l D O) as (c & E & B & F).
    exists (Normal (match lookup k (props c ++ hidden c) with
                    | Some v => v
                    | None => if k =? "__proto__" then prototype_value c
                              else Prim (builtin_member (is_array c) k)
                    end)).
    split.
    + intros a [= <-]. destruct (lookup k (props c ++ hidden c)) as [v|] eqn:L.
      * destruct (lookup_Forall _ k v _ F L) as [k' H]. exact H.
      * unfold prototype_value. rewrite B. destruct (k =? "__proto__"); exact I.
    + intros h K. unfold get. rewrite (keeps_nth_error h0 h l K O), E.
      rewrite (get_from_data _ h _ l k c); [reflexivity | | exact B].
      rewrite (keeps_nth_error h0 h l K O). exact E.
Qed.

Lemma reads_opt_get (h0 : heap) (v : value) (k : string) :
  data_store h0 -> old (length h0) v -> reads h0 (old (length h0)) (opt_get v k).
Proof.
  intros D O. unfold opt_get. destruct (nullish v).
  - apply reads_ret. exact I.
  - apply reads_get; assumption.
Qed.

Lemma reads_or_else (h0 : heap) (G : value -> Prop) (a : value) (b : M heap value) :
  G a -> reads h0 G b -> reads h0 G (or_else a b).
Proof.
  intros Ha Hb. unfold or_else. destruct (truthy a); [apply reads_ret, Ha | exact Hb].
Qed.

Lemma reads_to_string (h0 : heap) (v : value) : reads h0 (fun _ => True) (to_string v).
Proof.
  unfold to_string. destruct v as [[]|]; try (apply reads_lift; auto); apply reads_ret; auto.
Qed.

Lemma reads_stripTrailingSlash (h0 : heap) (v : value) :
  reads h0 (fun _ => True) (stripTrailingSlash v).
Proof.
  unfold stripTrailingSlash.
  destruct v as [[]|]; try (apply reads_lift; auto); apply reads_ret; auto.
Qed.

Lemma reads_plus (h0 : heap) (a : value) (b : string) : reads h0 (fun _ => True) (plus a b).
Proof.
  unfold plus. apply (reads_bind h0 (fun _ => True)); [apply reads_to_string|].
  intros s _. apply reads_ret. exact I.
Qed.

(** ** Writes *)

Lemma triple_known {A B : Type} (h0 : heap) (P : heap -> Prop) (Q : B -> heap -> Prop)
    (m : M heap A) (f : A -> M heap B) (a : A) :
  (forall h, P h -> m h = (Normal a, h)) ->
  triple h0 P (f a) Q ->
  triple h0 P (bind m f) Q.
Proof.
  intros Hm Hf h Ph. unfold bind. rewrite (Hm h Ph). apply Hf, Ph.
Qed.

(** A step that leaves the store as it is, whatever it returns. *)
Lemma triple_pure {A B : Type} (h0 : heap) (P : heap -> Prop) (Q : B -> heap -> Prop)
    (m : M heap A) (f : A -> M heap B) :
  (forall h, snd (m h) = h) ->
  (forall h, P h -> keeps h0 h) ->
  (forall a, triple h0 P (f a) Q) ->
  triple h0 P (bind m f) Q.
Proof.
  intros Hm HP Hf h Ph. unfold bind. specialize (Hm h).
  destruct (m h) as [[a|e] h']; simpl in Hm; subst h'; [apply Hf, Ph | apply HP, Ph].
Qed.

Lemma get_pure (v : value) (k : string) (h : heap) : snd (get v k h) = h.
Proof.
  unfold get. destruct v as [[]|l]; try reflexivity.
  destruct (nth_error h l); reflexivity.
Qed.

Lemma triple_literal {B : Type} (h0 : heap) (P : heap -> Prop) (Q : B -> heap -> Prop)
    (ps : list (string * value)) (f : value -> M heap B) :
  (forall l, triple h0 (fun h' => exists h, P h /\ l = length h
                                 /\ h' = h ++ [ plain_object ps ])
               (f (Ref l)) Q) ->
  triple h0 P (bind (literal ps) f) Q.
Proof.
  intros Hf h Ph. unfold bind, literal. apply (Hf (length h)).
  exists h. auto.
Qed.

Lemma get_from_own (fuel : nat) (h : heap) (accessor : value) (l : nat) (k : string)
    (c : cell) (v : value) :
  nth_error h l = Some c -> lookup k (props c ++ hidden c) = Some v ->
  get_from fuel h accessor l k = v.
Proof.
  intros E L. destruct fuel; simpl; rewrite E, L; reflexivity.
Qed.

Lemma has_key_false {A : Type} (k : string) (o : list (string * A)) :
  has_key k o = false -> lookup k o = None.
Proof.
  unfold has_key. destruct (lookup k o); [discriminate | reflexivity].
Qed.

(** The store after an assignment to the object at [l]: the object at [l]
    is the only one that may differ. *)
Lemma set_writes_target (l : nat) (k : string) (v : value) (h : heap) :
  snd (set (Ref l) k v h) = h
  \/ exists c, snd (set (Ref l) k v h) = put l c h.
Proof.
  unfold set. destruct (nth_error h l) as [c|]; [|auto].
  destruct (has_key k (props c)); [right; eexists; reflexivity|].
  destruct (has_key k (hidden c)); [right; eexists; reflexivity|].
  destruct ((k =? "__proto__") && accessor_inherited (length h) h (proto c)).
  - destruct v as [[]|p]; try (left; reflexivity); try (right; eexists; reflexivity).
    destruct (on_chain (length h) h l (At p)); [left | right; eexists]; reflexivity.
  - right; eexists; reflexivity.
Qed.

Lemma set_primitive_target (p : primitive) (k : string) (v : value) (h : heap) :
  snd (set (Prim p) k v h) = h.
Proof. destruct p; reflexivity. Qed.

(** An assignment to an object allocated by the handler keeps [h0] and
    leaves every other object as it is. *)
Lemma set_fresh (h0 h : heap) (l : nat) (k : string) (v : value) :
  keeps h0 h -> length h0 <= l ->
  keeps h0 (snd (set (Ref l) k v h))
  /\ length (snd (set (Ref l) k v h)) = length h
  /\ forall l', l' <> l -> nth_error (snd (set (Ref l) k v h)) l' = nth_error h l'.
Proof.
  intros K H. destruct (set_writes_target l k v h) as [->|[c ->]].
  - auto.
  - split; [apply keeps_put; assumption|].
    split; [apply put_length|]. intros l' N. apply nth_error_put_other, N.
Qed.

(** After [linksObject[key] = link], where [link] is an object just made by
    a literal without a key [__proto__], [linksObject[key]] is [link]. *)
Lemma get_after_set (h : heap) (L e : nat) (key : string) (ps : list (string * value)) :
  L < length h -> e <> L ->
  nth_error h e = Some (plain_object ps) ->
  lookup "__proto__" ps = None ->
  forall h', set (Ref L) key (Ref e) h = (Normal tt, h') ->
  get (Ref L) key h' = (Normal (Ref e), h').
Proof.
  intros HL Ne He Hps h'.
  assert (G : forall c', h' = put L c' h ->
                         (lookup key (props c' ++ hidden c') = Some (Ref e)
                          \/ (lookup key (props c' ++ hidden c') = None
                              /\ proto c' = At e /\ key = "__proto__")) ->
                         get (Ref L) key h' = (Normal (Ref e), h')).
  { intros c' -> Hc'. unfold get.
    pose proof (nth_error_put_same L c' h HL) as EL.
    rewrite EL. destruct Hc' as [Hown|(Hnone & Hproto & ->)].
    - rewrite (get_from_own _ _ _ L key c' (Ref e)); auto.
    - rewrite put_length. destruct (length h) as [|f]; [lia|].
      cbn [get_from]. rewrite EL, Hnone, Hproto.
      unfold prototype_value. rewrite Hproto.
      rewrite (get_from_data f _ _ e "__proto__"
                 (plain_object ps)).
      + unfold plain_object. cbn [props hidden]. rewrite app_nil_r, Hps. reflexivity.
      + rewrite nth_error_put_other by exact Ne. exact He.
      + reflexivity. }
  intros Hset.
  destruct (nth_error h L) as [c|] eqn:Ec; [|apply nth_error_None in Ec; lia].
  unfold set in Hset. rewrite Ec in Hset.
  destruct (has_key key (props c)) eqn:K1.
  - injection Hset as <-. apply (G _ eq_refl). left. cbn [props hidden with_props].
    rewrite lookup_app, lookup_replace_prop_same by exact K1. reflexivity.
  - destruct (has_key key (hidden c)) eqn:K2.
    + injection Hset as <-. apply (G _ eq_refl). left. cbn [props hidden with_hidden].
      rewrite lookup_app, (has_key_false _ _ K1).
      apply lookup_replace_prop_same. exact K2.
    + destruct ((key =? "__proto__") && accessor_inherited (length h) h (proto c)) eqn:K3.
      * destruct (on_chain (length h) h L (At e)); [discriminate|].
        injection Hset as <-. apply (G _ eq_refl). right.
        apply andb_true_iff in K3. destruct K3 as [K3 _]. apply String.eqb_eq in K3.
        cbn [props hidden with_proto proto].
        rewrite lookup_app, (has_key_false _ _ K1), (has_key_false _ _ K2). auto.
      * injection Hset as <-. apply (G _ eq_refl). left. cbn [props hidden with_props].
        rewrite lookup_app, lookup_set_prop_same. reflexivity.
Qed.

(** ** Loops that raise *)

(** A loop one of whose bodies raises does not end normally. *)
Lemma triple_for_each_raises (h0 : heap) (I : heap -> Prop) (ks : list string)
    (body : string -> M heap unit) (k : string) :
  In k ks ->
  (forall k', triple h0 I (body k') (fun _ => I)) ->
  triple h0 I (body k) (fun _ _ => False) ->
  triple h0 I (for_each ks body) (fun _ _ => False).
Proof.
  intros Hin Hb Hk. induction ks as [|k' r IH]; [contradiction|].
  cbn [for_each]. destruct (string_dec k' k) as [->|N].
  - apply (triple_bind h0 I (fun _ _ => False)); [exact Hk|].
    intros _ h [].
  - apply (triple_bind h0 I (fun _ => I)); [apply Hb|].
    intros _. apply IH. destruct Hin as [E|Hin]; [congruence | exact Hin].
Qed.

Lemma filter_true {A : Type} (l : list A) : filter (fun _ => true) l = l.
Proof. induction l as [|x r IH]; [reflexivity|]. cbn. rewrite IH. reflexivity. Qed.

(** The keys that [for ... in] enumerates on an object that holds data are
    its own enumerable keys. *)
Lemma enumerate_data (fuel : nat) (h : heap) (l : nat) (c : cell) :
  nth_error h l = Some c -> proto c = Builtin ->
  enumerate fuel h l [] = keys (props c).
Proof.
  intros E B. destruct fuel; cbn [enumerate]; rewrite E, B, app_nil_r; apply filter_true.
Qed.

Lemma keeps_cell (h0 h : heap) (l : nat) (c : cell) :
  keeps h0 h -> nth_error h0 l = Some c -> nth_error h l = Some c.
Proof.
  intros K E. rewrite (keeps_nth_error h0 h l K); [exact E|].
  apply nth_error_Some. congruence.
Qed.

(** The read of an own enumerable property of an object of [h0]. *)
Lemma get_own (h0 h : heap) (l : nat) (c : cell) (k : string) (v : value) :
  keeps h0 h -> nth_error h0 l = Some c -> lookup k (props c) = Some v ->
  get (Ref l) k h = (Normal v, h).
Proof.
  intros K E L. pose proof (keeps_cell h0 h l c K E) as E'.
  unfold get. rewrite E'.
  rewrite (get_from_own _ h _ l k c v E'); [reflexivity|].
  rewrite lookup_app, L. reflexivity.
Qed.

Lemma triple_for_in_raises (h0 : heap) (I : heap -> Prop) (l : nat) (c : cell)
    (body : string -> M heap unit) (k : string) (v : value) :
  (forall h, I h -> keeps h0 h) ->
  nth_error h0 l = Some c -> proto c = Builtin -> lookup k (props c) = Some v ->
  (forall k', triple h0 I (body k') (fun _ => I)) ->
  triple h0 I (body k) (fun _ _ => False) ->
  triple h0 I (for_in (Ref l) body) (fun _ _ => False).
Proof.
  intros HI E B L Hb Hk h Ih. unfold for_in.
  rewrite (enumerate_data _ h l c (keeps_cell h0 h l c (HI h Ih) E) B).
  apply (triple_for_each_raises h0 I _ body k); try assumption.
  apply lookup_In_keys. congruence.
Qed.

(** ** The handler *)

Section Entry.

Variable h0 : heap.
Hypothesis h0_data : data_store h0.

Lemma set_self_frame (L S : nat) (k : string) (v : value) :
  triple h0 (self_invariant h0 L S) (set (Ref S) k v) (fun _ => self_invariant h0 L S).
Proof.
  intros h (K & E & HS & HL & N).
  destruct (set_fresh h0 h S k v K HS) as (K' & _ & O).
  destruct (set (Ref S) k v h) as [[u|e] h']; cbn [snd] in *; [|exact K'].
  split; [exact K'|]. split; [|auto]. rewrite O by congruence. exact E.
Qed.

Lemma merge_info_frame (L S : nat) (swaggerDoc : value) (infoKey : string) :
  old (length h0) swaggerDoc ->
  triple h0 (self_invariant h0 L S) (merge_info swaggerDoc (Ref L) infoKey)
    (fun _ => self_invariant h0 L S).
Proof.
  intros O. unfold merge_info.
  assert (Kself : forall h, self_invariant h0 L S h -> get (Ref L) "self" h = (Normal (Ref S), h)).
  { intros h (_ & E & _). unfold get. rewrite E.
    rewrite (get_from_own _ h _ L "self" _ (Ref S) E); reflexivity. }
  assert (Kp : forall h, self_invariant h0 L S h -> keeps h0 h) by (intros h H; apply H).
  apply (triple_known h0 _ _ _ _ (Ref S) Kself).
  apply triple_pure; [apply get_pure | exact Kp |]. intros current.
  apply triple_when; [intros _ | auto].
  apply (triple_known h0 _ _ _ _ (Ref S) Kself).
  apply (triple_read h0 (old (length h0))); [apply reads_get; assumption | exact Kp |].
  intros info Hinfo _.
  apply (triple_read h0 (old (length h0))); [apply reads_get; assumption | exact Kp |].
  intros value _ _.
  apply set_self_frame.
Qed.

Lemma set_link_frame (L e : nat) (key : string) (ps : list (string * value)) :
  lookup "__proto__" ps = None ->
  triple h0
    (fun h' => exists h, links_invariant h0 L h /\ e = length h
                         /\ h' = h ++ [ plain_object ps ])
    (set (Ref L) key (Ref e))
    (fun _ => linked_invariant h0 L e key).
Proof.
  intros Hps h' (h & (K & HL & HL') & -> & ->).
  assert (K1 : keeps h0 (h ++ [ plain_object ps ]))
    by (apply keeps_alloc, K).
  destruct (set_fresh h0 _ L key (Ref (length h)) K1 HL) as (K' & Len & _).
  pose proof (get_after_set
                (h ++ [ (plain_object ps) ])
                L (length h) key ps) as G.
  destruct (set (Ref L) key (Ref (length h)) _) as [[[]|err] h2] eqn:Es;
    cbn [snd] in *; [|exact K'].
  rewrite length_app in Len. cbn [length] in Len.
  unfold linked_invariant.
  split; [exact K'|]. split; [exact HL|]. split; [lia|].
  split; [apply keeps_length, K|].
  apply G; try reflexivity; try exact Hps.
  - rewrite length_app. cbn [length]. lia.
  - lia.
  - rewrite nth_error_app2 by lia. rewrite Nat.sub_diag. reflexivity.
Qed.

Lemma set_tags_frame (L e : nat) (key : string) (v : value) :
  triple h0 (linked_invariant h0 L e key) (set (Ref e) "tags" v) (fun _ => links_invariant h0 L).
Proof.
  intros h (K & HL & HL' & He & _).
  destruct (set_fresh h0 h e "tags" v K He) as (K' & Len & _).
  destruct (set (Ref e) "tags" v h) as [[u|err] h']; cbn [snd] in *; [|exact K'].
  unfold links_invariant. repeat split; [exact K' | exact HL | lia].
Qed.

Lemma link_operation_frame (L : nat) (basePath operation : value)
    (pathKey methodKey : string) :
  old (length h0) operation ->
  triple h0 (links_invariant h0 L)
    (link_operation basePath pathKey methodKey operation (Ref L))
    (fun _ => links_invariant h0 L).
Proof.
  intros O. unfold link_operation.
  assert (Kp : forall h, links_invariant h0 L h -> keeps h0 h) by (intros h H; apply H).
  apply (triple_read h0 (old (length h0))); [apply reads_get; assumption | exact Kp |].
  intros id _ Kid.
  apply triple_when; [intros _ | auto].
  apply (triple_known h0 _ _ _ _ id); [intros h H; apply Kid, Kp, H|].
  apply (triple_read h0 (fun _ => True)); [apply reads_to_string | exact Kp |].
  intros key _ Kkey.
  apply (triple_read h0 (fun _ => True)); [apply reads_stripTrailingSlash | exact Kp |].
  intros stripped _ _.
  apply (triple_read h0 (fun _ => True)); [apply reads_plus | exact Kp |].
  intros href _ _.
  apply (triple_read h0 (old (length h0))); [apply reads_get; assumption | exact Kp |].
  intros description Hd _.
  apply (triple_read h0 (old (length h0))); [| exact Kp |].
  { apply reads_or_else; [exact Hd|].
    apply (reads_bind h0 (old (length h0))); [apply reads_get; assumption|].
    intros summary Hs. apply reads_or_else; [exact Hs | apply reads_ret; exact I]. }
  intros description' _ _.
  apply (triple_read h0 (old (length h0))); [apply reads_get; assumption | exact Kp |].
  intros operationId _ _.
  apply triple_literal. intros e.
  apply (triple_bind h0 _ (fun _ => linked_invariant h0 L e key)).
  { apply set_link_frame. reflexivity. }
  intros _.
  assert (Kq : forall h, linked_invariant h0 L e key h -> keeps h0 h) by (intros h H; apply H).
  apply (triple_read h0 (old (length h0))); [apply reads_get; assumption | exact Kq |].
  intros tags Ht _.
  apply (triple_read h0 (fun _ => True)); [| exact Kq |].
  { destruct (truthy tags); [|apply reads_ret; exact I].
    apply (reads_bind h0 (old (length h0))); [apply reads_get; assumption|].
    intros tags' Ht'.
    apply (reads_bind h0 (old (length h0))); [apply reads_get; assumption|].
    intros len _. apply reads_lift. auto. }
  intros positive _ _.
  apply triple_when.
  - intros _.
    apply (triple_known h0 _ _ _ _ id); [intros h H; apply Kid, Kq, H|].
    apply (triple_known h0 _ _ _ _ key); [intros h H; apply Kkey, Kq, H|].
    apply (triple_known h0 _ _ _ _ (Ref e)); [intros h H; apply H|].
    apply (triple_read h0 (old (length h0))); [apply reads_get; assumption | exact Kq |].
    intros tags2 _ _.
    apply set_tags_frame.
  - intros h (K & HL & HL' & _). repeat split; assumption.
Qed.

(** The body of the loop over the methods of a path keeps the invariant of
    the loops. *)
Lemma method_body_frame (L : nat) (swaggerDoc basePath : value) (pathKey methodKey : string) :
  old (length h0) swaggerDoc ->
  triple h0 (links_invariant h0 L)
    ( paths <- get swaggerDoc "paths" ;;
      item <- get paths pathKey ;;
      operation <- get item methodKey ;;
      link_operation basePath pathKey methodKey operation (Ref L) )
    (fun _ => links_invariant h0 L).
Proof.
  intros O.
  assert (Kl : forall h, links_invariant h0 L h -> keeps h0 h) by (intros h H; apply H).
  apply (triple_read h0 (old (length h0))); [apply reads_get; assumption | exact Kl |].
  intros paths2 Hp2 _.
  apply (triple_read h0 (old (length h0))); [apply reads_get; assumption | exact Kl |].
  intros item2 Hitem2 _.
  apply (triple_read h0 (old (length h0))); [apply reads_get; assumption | exact Kl |].
  intros operation Hop _.
  apply link_operation_frame. exact Hop.
Qed.

(** So does the body of the loop over the paths. *)
Lemma path_body_frame (L : nat) (swaggerDoc basePath : value) (pathKey : string) :
  old (length h0) swaggerDoc ->
  triple h0 (links_invariant h0 L)
    ( paths <- get swaggerDoc "paths" ;;
      item <- get paths pathKey ;;
      for_in item (fun methodKey =>
        paths <- get swaggerDoc "paths" ;;
        item <- get paths pathKey ;;
        operation <- get item methodKey ;;
        link_operation basePath pathKey methodKey operation (Ref L)) )
    (fun _ => links_invariant h0 L).
Proof.
  intros O.
  assert (Kl : forall h, links_invariant h0 L h -> keeps h0 h) by (intros h H; apply H).
  apply (triple_read h0 (old (length h0))); [apply reads_get; assumption | exact Kl |].
  intros paths1 Hp1 _.
  apply (triple_read h0 (old (length h0))); [apply reads_get; assumption | exact Kl |].
  intros item _ _.
  apply triple_for_in. intros methodKey. apply method_body_frame. exact O.
Qed.

(** The handler up to the loops over the operations.  Whatever is to be
    shown of [construct] is shown of [link_operations], run in a store where
    [linksObject] was allocated by the handler. *)
Lemma construct_to_link_operations (getSwaggerDoc : outcome value) (env : Env)
    (Q : value -> heap -> Prop) :
  (forall v, getSwaggerDoc = Normal v -> old (length h0) v) ->
  (forall swaggerDoc basePath L,
      getSwaggerDoc = Normal swaggerDoc ->
      triple h0 (links_invariant h0 L) (link_operations swaggerDoc basePath (Ref L)) Q) ->
  triple h0 (keeps h0) (construct getSwaggerDoc env) Q.
Proof.
  intros Hdoc Htail. unfold construct.
  assert (Kp : forall h, keeps h0 h -> keeps h0 h) by auto.
  apply (triple_read h0 (old (length h0))); [apply reads_lift, Hdoc | exact Kp |].
  intros swaggerDoc O Edoc.
  apply (triple_read h0 (old (length h0))); [apply reads_opt_get; assumption | exact Kp |].
  intros servers Hservers _.
  apply (triple_read h0 (old (length h0))); [apply reads_opt_get; assumption | exact Kp |].
  intros first Hfirst _.
  apply (triple_read h0 (old (length h0))); [apply reads_opt_get; assumption | exact Kp |].
  intros url Hurl _.
  apply (triple_read h0 (old (length h0))); [| exact Kp |].
  { apply reads_or_else; [exact Hurl|].
    apply (reads_bind h0 (old (length h0))); [apply reads_get; assumption|].
    intros legacy Hl. apply reads_or_else; [exact Hl | apply reads_ret; exact I]. }
  intros basePath _ _. cbv zeta.
  apply (triple_read h0 (old (length h0))); [apply reads_opt_get; assumption | exact Kp |].
  intros info1 Hi1 _.
  apply (triple_read h0 (old (length h0))); [apply reads_opt_get; assumption | exact Kp |].
  intros version Hv _.
  apply (triple_read h0 (old (length h0)));
    [apply reads_or_else; [exact Hv | apply reads_ret; exact I] | exact Kp |].
  intros version' _ _.
  apply (triple_read h0 (old (length h0))); [apply reads_opt_get; assumption | exact Kp |].
  intros info2 Hi2 _.
  apply (triple_read h0 (old (length h0))); [apply reads_opt_get; assumption | exact Kp |].
  intros title Ht _.
  apply (triple_read h0 (old (length h0)));
    [apply reads_or_else; [exact Ht | apply reads_ret; exact I] | exact Kp |].
  intros title' _ _.
  apply (triple_read h0 (old (length h0))); [apply reads_opt_get; assumption | exact Kp |].
  intros info3 Hi3 _.
  apply (triple_read h0 (old (length h0))); [apply reads_opt_get; assumption | exact Kp |].
  intros description Hd _.
  apply (triple_read h0 (old (length h0)));
    [apply reads_or_else; [exact Hd | apply reads_ret; exact I] | exact Kp |].
  intros description' _ _.
  apply (triple_read h0 (fun _ => True)); [apply reads_to_string | exact Kp |].
  intros text1 _ _.
  apply (triple_read h0 (fun _ => True)); [apply reads_to_string | exact Kp |].
  intros text2 _ _.
  apply triple_literal. intros S.
  apply triple_literal. intros L.
  (* the loop over info *)
  apply (triple_weaken h0 _ (self_invariant h0 L S) _ Q); [| |auto].
  2:{ intros h (h1 & (h2 & K & -> & ->) & -> & ->).
      apply keeps_length in K as Len.
      unfold self_invariant.
      split; [apply keeps_alloc, keeps_alloc, K|].
      split; [rewrite nth_error_app2 by lia; rewrite Nat.sub_diag; reflexivity|].
      rewrite length_app. cbn [length]. lia. }
  assert (Ks : forall h, self_invariant h0 L S h -> keeps h0 h) by (intros h H; apply H).
  apply (triple_read h0 (old (length h0))); [apply reads_opt_get; assumption | exact Ks |].
  intros info Hinfo _.
  apply (triple_bind h0 _ (fun _ => self_invariant h0 L S)).
  { apply triple_when; [intros _ | auto].
    apply (triple_read h0 (old (length h0))); [apply reads_get; assumption | exact Ks |].
    intros info' _ _.
    apply triple_for_in. intros infoKey. apply merge_info_frame. exact O. }
  intros _.
  (* the loops over the operations *)
  apply (triple_weaken h0 _ (links_invariant h0 L) _ Q); [| |auto].
  2:{ intros h (K & E & HS & HL & N). unfold links_invariant.
      split; [exact K|]. split; [exact HL|]. apply nth_error_Some. congruence. }
  apply (Htail swaggerDoc basePath L).
  specialize (Edoc h0 (keeps_refl h0)). unfold lift in Edoc. congruence.
Qed.

Lemma construct_frame (getSwaggerDoc : outcome value) (env : Env) :
  (forall v, getSwaggerDoc = Normal v -> old (length h0) v) ->
  triple h0 (keeps h0) (construct getSwaggerDoc env) (fun _ => keeps h0).
Proof.
  intros Hdoc. apply construct_to_link_operations; [exact Hdoc|].
  intros swaggerDoc basePath L Edoc. unfold link_operations.
  assert (O : old (length h0) swaggerDoc) by (apply Hdoc, Edoc).
  assert (Kl : forall h, links_invariant h0 L h -> keeps h0 h) by (intros h H; apply H).
  apply (triple_read h0 (old (length h0))); [apply reads_opt_get; assumption | exact Kl |].
  intros paths _ _.
  apply (triple_bind h0 _ (fun _ => links_invariant h0 L)).
  { apply triple_when; [intros _ | auto].
    apply (triple_read h0 (old (length h0))); [apply reads_get; assumption | exact Kl |].
    intros paths' _ _.
    apply triple_for_in. intros pathKey. apply path_body_frame. exact O. }
  intros _.
  intros h (K & _). unfold literal. cbn. apply keeps_alloc, K.
Qed.

(** An operation that is null or undefined: the read of its [operationId]
    raises, so the loops over the operations do not end normally. *)
Lemma link_operations_raises (d p i L : nat) (cd cp ci : cell) (basePath operation : value)
    (pathKey methodKey : string) :
  nth_error h0 d = Some cd -> lookup "paths" (props cd) = Some (Ref p) ->
  nth_error h0 p = Some cp -> lookup pathKey (props cp) = Some (Ref i) ->
  nth_error h0 i = Some ci -> lookup methodKey (props ci) = Some operation ->
  nullish operation = true ->
  triple h0 (links_invariant h0 L) (link_operations (Ref d) basePath (Ref L))
    (fun _ _ => False).
Proof.
  intros Ed Ld Ep Lp Ei Li Hnull. unfold link_operations.
  assert (Kl : forall h, links_invariant h0 L h -> keeps h0 h) by (intros h H; apply H).
  assert (O : old (length h0) (Ref d)).
  { cbn. apply nth_error_Some. congruence. }
  assert (Bp : proto cp = Builtin).
  { destruct (data_store_cell h0 p h0_data) as (c & E & B & _);
      [apply nth_error_Some; congruence|]. congruence. }
  assert (Bi : proto ci = Builtin).
  { destruct (data_store_cell h0 i h0_data) as (c & E & B & _);
      [apply nth_error_Some; congruence|]. congruence. }
  assert (Gd : forall h, links_invariant h0 L h -> get (Ref d) "paths" h = (Normal (Ref p), h)).
  { intros h H. apply (get_own h0 h d cd); [apply Kl, H | exact Ed | exact Ld]. }
  assert (Gp : forall h, links_invariant h0 L h -> get (Ref p) pathKey h = (Normal (Ref i), h)).
  { intros h H. apply (get_own h0 h p cp); [apply Kl, H | exact Ep | exact Lp]. }
  assert (Gi : forall h, links_invariant h0 L h
                         -> get (Ref i) methodKey h = (Normal operation, h)).
  { intros h H. apply (get_own h0 h i ci); [apply Kl, H | exact Ei | exact Li]. }
  apply (triple_known h0 _ _ _ _ (Ref p)); [exact Gd|].
  apply (triple_bind h0 _ (fun _ _ => False)); [|intros _ h []].
  cbn [truthy when].
  apply (triple_known h0 _ _ _ _ (Ref p)); [exact Gd|].
  apply (triple_for_in_raises h0 _ p cp _ pathKey (Ref i) Kl Ep Bp Lp).
  { intros pathKey'. apply path_body_frame. exact O. }
  apply (triple_known h0 _ _ _ _ (Ref p)); [exact Gd|].
  apply (triple_known h0 _ _ _ _ (Ref i)); [exact Gp|].
  apply (triple_for_in_raises h0 _ i ci _ methodKey operation Kl Ei Bi Li).
  { intros methodKey'. apply method_body_frame. exact O. }
  apply (triple_known h0 _ _ _ _ (Ref p)); [exact Gd|].
  apply (triple_known h0 _ _ _ _ (Ref i)); [exact Gp|].
  apply (triple_known h0 _ _ _ _ operation); [exact Gi|].
  intros h H. unfold link_operation, bind.
  destruct operation as [[]|]; try discriminate Hnull; cbn; apply Kl, H.
Qed.

End Entry.

(** The tree of a value of [h0] is the same in every store that keeps [h0]. *)
Lemma render_tree_keeps (h0 h : heap) (fuel : nat) (v : value) :
  data_store h0 -> keeps h0 h -> old (length h0) v ->
  render_tree fuel h v = render_tree fuel h0 v.
Proof.
  intros D K. revert v. induction fuel as [|f IH]; intros v O.
  - destruct v as [[]|l]; reflexivity.
  - destruct v as [p|l]; [destruct p; reflexivity|].
    simpl in O. cbn [render_tree].
    rewrite (keeps_nth_error h0 h l K O).
    destruct (data_store_cell h0 l D O) as (c & E & _ & F).
    rewrite E.
    assert (Fp : forall kv, In kv (props c) -> old (length h0) (snd kv)).
    { intros kv Hin. rewrite Forall_forall in F. apply F, in_or_app. left. exact Hin. }
    destruct (is_array c).
    + f_equal. f_equal. apply map_ext_in. intros kv Hin. rewrite IH by (apply Fp, Hin).
      reflexivity.
    + f_equal. f_equal. clear E F. induction (props c) as [|kv r IHr]; [reflexivity|].
      cbn [flat_map]. rewrite IH by (apply Fp; left; reflexivity).
      rewrite IHr by (intros kv' Hin; apply Fp; right; exact Hin). reflexivity.
Qed.

(** C9.  The handler leaves the objects of the specification unchanged.
    Let the store at entry hold data only (objects with built-in prototypes
    whose properties hold primitives or references into the store) and let
    the loader return a value of that store, or raise.  Then, whatever the
    engine's coercions return, the handler returns normally, on the success
    path and on the error path alike; the store that it leaves is the store
    at entry followed by the objects that the handler allocated; every
    object of the store at entry is as it was; and every value of the
    store at entry, the specification among them, denotes the same tree
    after as before. *)
Theorem specification_is_not_written :
  forall (h0 : heap) (getSwaggerDoc : outcome value) (env : Env) (w : World),
    data_store h0 ->
    (forall v, getSwaggerDoc = Normal v -> old (length h0) v) ->
    fst (entrypoint getSwaggerDoc env {| store := h0; world := w |}) = Normal tt
    /\ (exists fresh,
          store (snd (entrypoint getSwaggerDoc env {| store := h0; world := w |}))
          = h0 ++ fresh)
    /\ (forall l c,
          nth_error h0 l = Some c ->
          nth_error (store (snd (entrypoint getSwaggerDoc env {| store := h0; world := w |}))) l
          = Some c)
    /\ (forall fuel v,
          old (length h0) v ->
          render_tree fuel
            (store (snd (entrypoint getSwaggerDoc env {| store := h0; world := w |}))) v
          = render_tree fuel h0 v).
Proof.
  intros h0 getSwaggerDoc env w D Hdoc.
  assert (R : fst (entrypoint getSwaggerDoc env {| store := h0; world := w |}) = Normal tt
              /\ keeps h0 (store (snd (entrypoint getSwaggerDoc env
                                         {| store := h0; world := w |})))).
  { pose proof (construct_frame h0 D getSwaggerDoc env Hdoc h0 (keeps_refl h0)) as C.
    unfold entrypoint, try_catch, bind, in_store, in_world. cbn [store world].
    destruct (construct getSwaggerDoc env h0) as [[responseJSON|error] h1].
    - cbn. destruct (render h1 responseJSON) as [text|error]; cbn; auto.
    - cbn. auto. }
  destruct R as [R K]. split; [exact R|]. split; [exact K|]. split.
  - intros l c E. rewrite (keeps_nth_error h0 _ l K); [exact E|].
    apply nth_error_Some. congruence.
  - intros fuel v O. apply render_tree_keeps; assumption.
Qed.

(** ** Runs that fail *)




(** An operation that is null (or undefined) makes the whole answer an
    error.  Let the store at entry hold data only, and let the document have
    an own property [paths] that holds an object, one of whose path items
    has a method whose value is null: then, whatever else the document
    holds, the handler answers 500 with the fixed error body, because
    [operation.operationId] is read without a test of [operation]. *)
Theorem null_operation_is_answered_with_500 :
  forall (h0 : heap) (d p i : nat) (cd cp ci : cell) (pathKey methodKey : string)
         (operation : value) (env : Env) (w : World),
    data_store h0 ->
    nth_error h0 d = Some cd -> lookup "paths" (props cd) = Some (Ref p) ->
    nth_error h0 p = Some cp -> lookup pathKey (props cp) = Some (Ref i) ->
    nth_error h0 i = Some ci -> lookup methodKey (props ci) = Some operation ->
    nullish operation = true ->
    fst (entrypoint (Normal (Ref d)) env {| store := h0; world := w |}) = Normal tt
    /\ statusCode (res (world (snd (entrypoint (Normal (Ref d)) env
                                      {| store := h0; world := w |})))) = 500
    /\ exists error,
         world (snd (entrypoint (Normal (Ref d)) env {| store := h0; world := w |}))
         = failed error w.
Proof.
  intros h0 d p i cd cp ci pathKey methodKey operation env w D Ed Ld Ep Lp Ei Li Hnull.
  assert (C : triple h0 (keeps h0) (construct (Normal (Ref d)) env) (fun _ _ => False)).
  { apply (construct_to_link_operations h0 D).
    - intros v [= <-]. cbn. apply nth_error_Some. congruence.
    - intros swaggerDoc basePath L [= <-].
      apply (link_operations_raises h0 D d p i L cd cp ci basePath operation pathKey methodKey);
        assumption. }
  specialize (C h0 (keeps_refl h0)).
  unfold entrypoint, try_catch, bind, in_store, in_world. cbn [store world].
  destruct (construct (Normal (Ref d)) env h0) as [[responseJSON|error] h1]; [destruct C|].
  split; [reflexivity|]. split; [reflexivity|]. exists error. reflexivity.
Qed.

End Facts.

(** The claim on the store of the [listFoo] scenario, with the sample
    engine. *)
Lemma specification_is_not_written_witness :
  fst (sample_entrypoint (Normal (Ref 4)) no_env
         {| store := listFoo_store; world := fresh_world |}) = Normal tt
  /\ (exists fresh,
        store (snd (sample_entrypoint (Normal (Ref 4)) no_env
                      {| store := listFoo_store; world := fresh_world |}))
        = listFoo_store ++ fresh)
  /\ (forall l c,
        nth_error listFoo_store l = Some c ->
        nth_error (store (snd (sample_entrypoint (Normal (Ref 4)) no_env
                                 {| store := listFoo_store; world := fresh_world |}))) l
        = Some c)
  /\ (forall fuel v,
        old (length listFoo_store) v ->
        render_tree fuel
          (store (snd (sample_entrypoint (Normal (Ref 4)) no_env
                         {| store := listFoo_store; world := fresh_world |}))) v
        = render_tree fuel listFoo_store v).
Proof.
  apply (specification_is_not_written (engine := sample_engine)
           listFoo_store (Normal (Ref 4)) no_env fresh_world).
  - repeat constructor; simpl; lia.
  - intros v [= <-]. simpl. lia.
Defined.

(** The null operation of [{paths: {"/x": {get: null}}}], with the sample
    engine. *)
Lemma null_operation_is_answered_with_500_witness :
  fst (sample_entrypoint (Normal (Ref 2)) no_env
         {| store := null_operation_store; world := fresh_world |}) = Normal tt
  /\ statusCode (res (world (snd (sample_entrypoint (Normal (Ref 2)) no_env
                                    {| store := null_operation_store;
                                       world := fresh_world |})))) = 500
  /\ exists error,
       world (snd (sample_entrypoint (Normal (Ref 2)) no_env
                     {| store := null_operation_store; world := fresh_world |}))
       = failed error fresh_world.
Proof.
  apply (null_operation_is_answered_with_500 (engine := sample_engine)
           null_operation_store 2 1 0
           (plain_object [ ("paths", Ref 1) ])
           (plain_object [ ("/x", Ref 0) ])
           (plain_object [ ("get", Prim Null) ])
           "/x" "get" (Prim Null) no_env fresh_world).
  - repeat constructor; simpl; lia.
  - reflexivity.
  - reflexivity.
  - reflexivity.
  - reflexivity.
  - reflexivity.
  - reflexivity.
  - reflexivity.
Defined.

End Frame.

(** * The two parts on the same inputs

    On the sample stores the handler of Part II leaves the world that the
    handler of Part I leaves on the corresponding documents. *)

Lemma parts_agree_on_listFoo :
  Store.world (snd (Store.sample_entrypoint (Normal (Store.Ref 4)) no_env
                      {| Store.store := Store.listFoo_store; Store.world := fresh_world |}))
  = snd (entrypoint (Normal (Some listFoo_document)) no_env fresh_world).
Proof. vm_compute. reflexivity. Qed.

Lemma parts_agree_on_reserved_names :
  Store.world (snd (Store.sample_entrypoint (Normal (Store.Ref 7)) no_env
                      {| Store.store := Store.reserved_store; Store.world := fresh_world |}))
  = snd (entrypoint (Normal (Some reserved_document)) no_env fresh_world).
Proof. vm_compute. reflexivity. Qed.

Lemma parts_agree_on_absent_specification :
  Store.world (snd (Store.sample_entrypoint (Normal (Store.Prim Store.Undefined)) no_env
                      {| Store.store := Store.listFoo_store; Store.world := fresh_world |}))
  = snd (entrypoint (Normal None) no_env fresh_world).
Proof. vm_compute. reflexivity. Qed.

Lemma parts_agree_when_loader_raises (error : exn) :
  Store.world (snd (Store.sample_entrypoint (Throws error) no_env
                      {| Store.store := Store.listFoo_store; Store.world := fresh_world |}))
  = snd (entrypoint (Throws error) no_env fresh_world).
Proof. reflexivity. Qed.
